(** * A genetic algorithm for the multi-dimensional knapsack problem

    Shallow embedding of [main.py] (initialisation, selection, crossover,
    mutation, the two repair operators and the main loop [find_ga]) and the
    properties of its specification.

    Conventions of the embedding.
    - A numpy integer array is a [list Z]; a matrix is a list of rows.  The
      instances the program builds have entries below 1000 and at most a few
      hundred items, far from the 64-bit range, so array arithmetic is
      written on [Z] without wrap-around.
    - [problem.p] and the utility ranking [u] have shape (1, n) in the
      source; they are modelled by their single row, so [u[0, j]] is entry
      [j] of [u].
    - Every call of [np.random] is replaced by an explicit argument holding
      the outcome of the draw.
    - A Python exception is a [Raise] result; reading or writing an array
      outside its bounds raises [IndexError]. *)

From Stdlib Require Import ZArith QArith String Lia Bool Sorted.
From stdpp Require Import base list.

Local Open Scope Z_scope.

(** ** Exceptions *)

Inductive exn : Type :=
| IndexError        (* an index outside an array *)
| ValueError        (* numpy refusing an argument *)
| SanityCheck       (* "PROBLEM: fancy alg has a solution that violates a restraint" *)
| BadOperator       (* "repair operator must be either 'simple' or 'fancy'" *)
| Unfinished.       (* the recorded random draws ran out inside a retry loop *)

Inductive result (A : Type) : Type :=
| Ok (a : A)
| Raise (e : exn).
Arguments Ok {A} a.
Arguments Raise {A} e.

#[global] Instance result_ret : MRet result := λ A a, Ok a.
#[global] Instance result_bind : MBind result := λ A B f m,
  match m with
  | Ok a => f a
  | Raise e => Raise e
  end.

(** ** Arrays *)

(** [a[i]] *)
Definition getitem {A} (a : list A) (i : nat) : result A :=
  match a !! i with
  | Some x => Ok x
  | None => Raise IndexError
  end.

(** [a[i] = x] *)
Definition setitem {A} (a : list A) (i : nat) (x : A) : result (list A) :=
  if decide (i < length a)%nat then Ok (<[i:=x]> a) else Raise IndexError.

(** [M[:, j]] *)
Fixpoint column (M : list (list Z)) (j : nat) : result (list Z) :=
  match M with
  | [] => Ok []
  | row :: M' =>
      x ← getitem row j;
      c ← column M' j;
      Ok (x :: c)
  end.

(** [np.zeros(n, dtype=int)] *)
Definition np_zeros (n : nat) : list Z := replicate n 0.

(** [x + y] and [x - y] on arrays of the same shape *)
Definition vadd (x y : list Z) : list Z := zip_with Z.add x y.
Definition vsub (x y : list Z) : list Z := zip_with Z.sub x y.

(** [np.greater(x, y).any()] *)
Definition any_greater (x y : list Z) : bool :=
  existsb (λ xy, snd xy <? fst xy) (zip x y).

(** [np.less_equal(x, y).all()] *)
Definition all_less_equal (x y : list Z) : bool :=
  forallb (λ xy, fst xy <=? snd xy) (zip x y).

(** [np.sum(np.multiply(x, y))] *)
Definition dot (x y : list Z) : Z := foldr Z.add 0 (zip_with Z.mul x y).

(** [np.sum(np.multiply(M, S), axis=1)] *)
Definition row_sums (M : list (list Z)) (S : list Z) : list Z :=
  map (λ row, dot row S) M.

(** [np.argmax(a)] and [np.argmin(a)]: the first position of an extremum;
    numpy raises [ValueError] on an empty array. *)
Fixpoint argbest (better : Z → Z → bool) (a : list Z) (i best_i : nat) (best : Z) : nat :=
  match a with
  | [] => best_i
  | x :: a' =>
      if better x best then argbest better a' (S i) i x
      else argbest better a' (S i) best_i best
  end.

Definition argmax (a : list Z) : result nat :=
  match a with
  | [] => Raise ValueError
  | x :: a' => Ok (argbest (λ y best, best <? y) a' 1%nat 0%nat x)
  end.

Definition argmin (a : list Z) : result nat :=
  match a with
  | [] => Raise ValueError
  | x :: a' => Ok (argbest (λ y best, y <? best) a' 1%nat 0%nat x)
  end.

(** ** The problem instance *)

Record Problem : Type := {
  items : nat;            (* n *)
  knapsacks : nat;        (* m *)
  r : list (list Z);      (* m x n costs *)
  b : list Z;             (* m capacities *)
  p : list Z              (* n profits *)
}.

(** The shapes the constructor [Problem(n, m, alpha)] establishes. *)
Record wf_problem (problem : Problem) : Prop := {
  wf_rows : length (r problem) = knapsacks problem;
  wf_cols : Forall (λ row, length row = items problem) (r problem);
  wf_caps : length (b problem) = knapsacks problem;
  wf_profits : length (p problem) = items problem
}.

(** Capacities are non-negative (data model of the specification). *)
Definition nonneg_capacities (problem : Problem) : Prop :=
  Forall (λ cap, 0 <= cap) (b problem).

(** A chromosome holds one bit per item. *)
Definition binary (S : list Z) : Prop := Forall (λ x, x = 0 ∨ x = 1) S.

(** [r · S <= b], knapsack by knapsack. *)
Definition feasible (problem : Problem) (S : list Z) : Prop :=
  ∀ i row cap,
    r problem !! i = Some row → b problem !! i = Some cap → dot row S <= cap.

(** ** Repair *)

(** The postcondition check shared by [initialize_pop] and [fancy_repair]:
    [for i in range(knapsacks): if np.greater(R, b).any(): raise ...]. *)
Fixpoint sanity_check (i : nat) (R caps : list Z) : result unit :=
  match i with
  | O => Ok tt
  | S i' => if any_greater R caps then Raise SanityCheck else sanity_check i' R caps
  end.

(** The DROP loop of [fancy_repair].  The source walks [j = 0, 1, ...] and
    reads [u[0, j]]; [us] is the part of [u] from position [j] on, so the
    read fails exactly when [j] has run past the end of [u]. *)
Fixpoint drop_loop (problem : Problem) (us : list nat) (S R : list Z)
  : result (list Z * list Z) :=
  if any_greater R (b problem) then
    match us with
    | [] => Raise IndexError
    | uj :: us' =>
        s ← getitem S uj;
        if s =? 1 then
          S' ← setitem S uj 0;
          c ← column (r problem) uj;
          drop_loop problem us' S' (vsub R c)
        else drop_loop problem us' S R
    end
  else Ok (S, R).

(** [range(start, 0, -1)]: [start, start - 1, ..., 1]. *)
Definition range_down (start : nat) : list nat := rev (seq 1 start).

(** One iteration of the ADD loop at position [j] of [u]. *)
Definition add_step (problem : Problem) (u : list nat) (SR : list Z * list Z) (j : nat)
  : result (list Z * list Z) :=
  uj ← getitem u j;
  s ← getitem (fst SR) uj;
  if s =? 0 then
    c ← column (r problem) uj;
    if all_less_equal (vadd (snd SR) c) (b problem) then
      S' ← setitem (fst SR) uj 1;
      Ok (S', vadd (snd SR) c)
    else Ok SR
  else Ok SR.

Fixpoint add_loop (problem : Problem) (u : list nat) (js : list nat) (SR : list Z * list Z)
  : result (list Z * list Z) :=
  match js with
  | [] => Ok SR
  | j :: js' =>
      SR' ← add_step problem u SR j;
      add_loop problem u js' SR'
  end.

(** The ADD phase: [for j in range(problem.items - 1, 0, -1)]. *)
Definition add_phase (problem : Problem) (u : list nat) (SR : list Z * list Z)
  : result (list Z * list Z) :=
  add_loop problem u (range_down (items problem - 1)) SR.

Definition fancy_repair (S R : list Z) (problem : Problem) (u : list nat)
  : result (list Z) :=
  SR1 ← drop_loop problem u S R;
  SR2 ← add_phase problem u SR1;
  _ ← sanity_check (knapsacks problem) (snd SR2) (b problem);
  Ok (fst SR2).

Definition repair (S : list Z) (problem : Problem) (operator : string) (u : list nat)
  : result (list Z) :=
  let R := row_sums (r problem) S in
  if String.eqb operator "simple" then
    if any_greater R (b problem) then Ok (np_zeros (length S)) else Ok S
  else if String.eqb operator "fancy" then fancy_repair S R problem u
  else Raise BadOperator.

(** ** Initial population *)

(** The construction loop of one chromosome in [initialize_pop].  [rest] is
    the shuffled array [T] read from its last element on: [j, T = T[-1],
    T[:-1]] takes the head of [rest], and raises [IndexError] once [T] is
    empty. *)
Fixpoint init_scan (problem : Problem) (rest : list nat) (Sk R : list Z)
  : result (list Z * list Z) :=
  match rest with
  | [] => Raise IndexError
  | j :: rest' =>
      s ← getitem Sk j;
      if s =? 0 then
        c ← column (r problem) j;
        if all_less_equal (vadd R c) (b problem) then
          Sk' ← setitem Sk j 1;
          init_scan problem rest' Sk' (vadd R c)
        else Ok (Sk, R)
      else Ok (Sk, R)
  end.

(** The body of [for k in range(N)], for the row whose shuffle came out as
    [T]. *)
Definition init_row (problem : Problem) (T : list nat) : result (list Z) :=
  let Sk := np_zeros (items problem) in
  let R := row_sums (r problem) Sk in
  SR ← init_scan problem (rev T) Sk R;
  _ ← sanity_check (knapsacks problem) (snd SR) (b problem);
  Ok (fst SR).

(** [initialize_pop(N, ga_problem)]; [shuffles] holds the outcome of
    [np.random.shuffle(T)] for each row in turn.  Row [k] of [S] is only
    touched in iteration [k], so the matrix is built row by row. *)
Fixpoint initialize_pop (N : nat) (problem : Problem) (shuffles : list (list nat))
  : result (list (list Z)) :=
  match N with
  | O => Ok []
  | S N' =>
      match shuffles with
      | [] => Raise Unfinished
      | T :: shuffles' =>
          Sk ← init_row problem T;
          rows ← initialize_pop N' problem shuffles';
          Ok (Sk :: rows)
      end
  end.

(** ** Fitness *)

(** [evaluate_pop_fitness]; [population[:, 0].size] needs a column 0. *)
Definition evaluate_pop_fitness (population : list (list Z)) (problem : Problem)
  : result (list Z) :=
  _ ← column population 0;
  Ok (map (λ row, dot (p problem) row) population).

Definition evaluate_child_fitness (child : list Z) (problem : Problem) : Z :=
  dot (p problem) child.

(** ** Selection *)

(** [np.random.choice(pool, size, replace=False)]: [draw] lists the
    positions of [pool] the generator picked; numpy refuses a sample larger
    than the pool. *)
Fixpoint take_at (pool : list nat) (draw : list nat) : result (list nat) :=
  match draw with
  | [] => Ok []
  | i :: draw' =>
      x ← getitem pool i;
      xs ← take_at pool draw';
      Ok (x :: xs)
  end.

Definition choice (pool : list nat) (size : nat) (draw : list nat) : result (list nat) :=
  if decide (size ≤ length pool)%nat then take_at pool draw else Raise ValueError.

(** What the generator can return for [choice(pool, size, replace=False)]:
    [size] distinct positions of the pool. *)
Definition valid_draw (pool_size size : nat) (draw : list nat) : Prop :=
  length draw = size ∧ NoDup draw ∧ Forall (λ i, (i < pool_size)%nat) draw.

(** [np.delete(a, idxs)]: [a] without the elements at the positions listed
    in [idxs]. *)
Fixpoint delete_from (i : nat) (a : list nat) (idxs : list nat) : list nat :=
  match a with
  | [] => []
  | x :: a' =>
      if bool_decide (i ∈ idxs) then delete_from (S i) a' idxs
      else x :: delete_from (S i) a' idxs
  end.

Definition np_delete (a : list nat) (idxs : list nat) : result (list nat) :=
  if forallb (λ i, i <? length a)%nat idxs then Ok (delete_from 0 a idxs)
  else Raise IndexError.

(** [a[idxs]] for an index array [idxs]. *)
Fixpoint take_values (a : list Z) (idxs : list nat) : result (list Z) :=
  match idxs with
  | [] => Ok []
  | i :: idxs' =>
      x ← getitem a i;
      xs ← take_values a idxs';
      Ok (x :: xs)
  end.

(** The two pools [T_1] and [T_2] of [binary_tournament_selection]. *)
Definition tournament_pools (population : list (list Z)) (draw_1 draw_2 : list nat)
  : result (list nat * list nat) :=
  let T := 2%nat in
  c0 ← column population 0;
  let population_pool := seq 0 (length c0) in
  T_1 ← choice population_pool T draw_1;
  population_pool ← np_delete population_pool T_1;
  T_2 ← choice population_pool T draw_2;
  Ok (T_1, T_2).

Definition binary_tournament_selection (population : list (list Z))
    (tournament_fitness : list Z) (draw_1 draw_2 : list nat) : result (nat * nat) :=
  TT ← tournament_pools population draw_1 draw_2;
  f1 ← take_values tournament_fitness (fst TT);
  w1 ← argmax f1;
  parent_1 ← getitem (fst TT) w1;
  f2 ← take_values tournament_fitness (snd TT);
  w2 ← argmax f2;
  parent_2 ← getitem (snd TT) w2;
  Ok (parent_1, parent_2).

(** ** Crossover and mutation *)

(** [for i in range(parent_1.size)]; [coins] holds the outcomes of
    [np.random.randint(2, size=1)], one per bit. *)
Fixpoint crossover_loop (count i : nat) (parent_1 parent_2 : list Z) (coins : list Z)
    (C : list Z) : result (list Z) :=
  match count with
  | O => Ok C
  | S count' =>
      match coins with
      | [] => Raise Unfinished
      | coin :: coins' =>
          x ← (if coin =? 0 then getitem parent_1 i else getitem parent_2 i);
          C' ← setitem C i x;
          crossover_loop count' (S i) parent_1 parent_2 coins' C'
      end
  end.

Definition uniform_crossover (parent_1 parent_2 : list Z) (coins : list Z)
  : result (list Z) :=
  crossover_loop (length parent_1) 0 parent_1 parent_2 coins (np_zeros (length parent_1)).

(** [mutate(child)]; [mutation] is the coin and [i] the position drawn from
    [bit_pool] (numpy refuses to draw from an empty pool). *)
Definition mutate (child : list Z) (mutation : Z) (i : nat) : result (list Z) :=
  if mutation =? 1 then Ok child
  else if decide (length child = 0%nat) then Raise ValueError
  else
    x ← getitem child i;
    if x =? 0 then setitem child i 1 else setitem child i 0.

(** ** Utility ranking *)

(** [np.argsort(a)]: the positions of [a] in ascending order of their
    entries, equal entries in their original order. *)
Fixpoint insert_by (key : nat → Q) (i : nat) (sorted : list nat) : list nat :=
  match sorted with
  | [] => [i]
  | j :: rest =>
      if Qle_bool (key j) (key i) then j :: insert_by key i rest
      else i :: j :: rest
  end.

Definition argsort (a : list Q) : list nat :=
  fold_left (λ sorted i, insert_by (λ j, nth j a 0%Q) i sorted) (seq 0 (length a)) [].

(** [c * row] for a scalar [c] *)
Definition scale (c : Q) (row : list Z) : list Q :=
  map (λ x, c * inject_Z x)%Q row.

(** [for i in ...: denom += np.multiply(w[i], r[i, :])] *)
Fixpoint weighted_cost (problem : Problem) (w : list Q) (ks : list nat) (denom : list Q)
  : result (list Q) :=
  match ks with
  | [] => Ok denom
  | i :: ks' =>
      wi ← getitem w i;
      ri ← getitem (r problem) i;
      weighted_cost problem w ks' (zip_with Qplus denom (scale wi ri))
  end.

(** [np.multiply(p, 1 / denom)] *)
Definition utilities (profits : list Z) (denom : list Q) : list Q :=
  zip_with (λ pj d, inject_Z pj * (1 / d))%Q profits denom.

(** [repair_preprocess(problem)].  [w] is [result.x], the vector the LP
    solver returned.  The floating-point utilities are written with exact
    rationals, and the scalar [denom = 0.0] is the zero vector it is
    broadcast to by the first [+=]. *)
Definition repair_preprocess (problem : Problem) (w : list Q) : result (list nat) :=
  denom ← weighted_cost problem w (seq 0 2) (replicate (items problem) 0%Q);
  Ok (argsort (utilities (p problem) denom)).

(** The ranking as the specification words it: the weighted cost of an item
    sums [w[i] * r[i][j]] over all [m] knapsacks. *)
Definition spec_repair_preprocess (problem : Problem) (w : list Q) : result (list nat) :=
  denom ← weighted_cost problem w (seq 0 (knapsacks problem))
             (replicate (items problem) 0%Q);
  Ok (argsort (utilities (p problem) denom)).

(** ** The main loop *)

(** The random outcomes one child consumes. *)
Record draws : Type := {
  draw_1 : list nat;      (* positions picked for T_1 *)
  draw_2 : list nat;      (* positions picked for T_2 *)
  coins : list Z;         (* crossover coins *)
  mutation : Z;           (* mutation coin *)
  flip : nat              (* bit picked by the mutation *)
}.

(** Selection, crossover, mutation and repair of one candidate child. *)
Definition make_child (problem : Problem) (repair_operator : string) (u : list nat)
    (population : list (list Z)) (fitness : list Z) (d : draws) : result (list Z) :=
  parents ← binary_tournament_selection population fitness (draw_1 d) (draw_2 d);
  P1 ← getitem population (fst parents);
  P2 ← getitem population (snd parents);
  C ← uniform_crossover P1 P2 (coins d);
  C ← mutate C (mutation d) (flip d);
  repair C problem repair_operator u.

(** [while C.tolist() in population.tolist(): ...]: the loop has no bound
    of its own; [retries] are the draws it gets to consume. *)
Fixpoint reject_duplicates (problem : Problem) (repair_operator : string) (u : list nat)
    (population : list (list Z)) (fitness : list Z) (C : list Z) (retries : list draws)
  : result (list Z) :=
  if bool_decide (C ∈ population) then
    match retries with
    | [] => Raise Unfinished
    | d :: retries' =>
        C' ← make_child problem repair_operator u population fitness d;
        reject_duplicates problem repair_operator u population fitness C' retries'
    end
  else Ok C.

(** The state [find_ga] carries from one generation to the next.  The
    wall-clock [time_record] is left out. *)
Record ga_state : Type := {
  population : list (list Z);
  fitness : list Z;
  fitness_record : list Z;
  solution_record : list (list Z);
  t : nat
}.

(** The replacement and record update that end a generation. *)
Definition replace_and_record (problem : Problem) (st : ga_state) (C : list Z)
  : result ga_state :=
  let C_fitness := evaluate_child_fitness C problem in
  S_prime ← argmin (fitness st);
  worst ← getitem (fitness st) S_prime;
  population' ← (if worst <? C_fitness then setitem (population st) S_prime C
                 else Ok (population st));
  best ← getitem (fitness_record st) (t st);
  fitness_record' ← (if best <? C_fitness then setitem (fitness_record st) (t st) C_fitness
                     else Ok (fitness_record st));
  solution_record' ← (if best <? C_fitness then setitem (solution_record st) (t st) C
                       else Ok (solution_record st));
  Ok {| population := population';
        fitness := fitness st;
        fitness_record := fitness_record';
        solution_record := solution_record';
        t := S (t st) |}.

(** One pass through the body of [while t < total_iterations], on the draws
    [ds] ([t >= 1] whenever the body runs, so [t - 1] is a position). *)
Definition generation (problem : Problem) (repair_operator : string) (u : list nat)
    (st : ga_state) (ds : list draws) : result ga_state :=
  previous ← getitem (fitness_record st) (t st - 1);
  fitness_record' ← setitem (fitness_record st) (t st) previous;
  previous_solution ← getitem (solution_record st) (t st - 1);
  solution_record' ← setitem (solution_record st) (t st) previous_solution;
  let st1 := {| population := population st;
                fitness := fitness st;
                fitness_record := fitness_record';
                solution_record := solution_record';
                t := t st |} in
  match ds with
  | [] => Raise Unfinished
  | d :: retries =>
      C ← make_child problem repair_operator u (population st) (fitness st) d;
      C ← reject_duplicates problem repair_operator u (population st) (fitness st) C retries;
      replace_and_record problem st1 C
  end.

(** [find_ga] up to the start of the loop: the state at [t = 1] and the
    ranking [u]. *)
Definition ga_start (k total_iterations : nat) (problem : Problem)
    (shuffles : list (list nat)) (w : list Q) : result (ga_state * list nat) :=
  population0 ← initialize_pop k problem shuffles;
  fitness0 ← evaluate_pop_fitness population0 problem;
  u ← repair_preprocess problem w;
  max_fitness_index ← argmax fitness0;
  best ← getitem fitness0 max_fitness_index;
  fitness_record0 ← setitem (np_zeros total_iterations) 0 best;
  best_solution ← getitem population0 max_fitness_index;
  solution_record0 ←
    setitem (replicate total_iterations (np_zeros (items problem))) 0 best_solution;
  Ok ({| population := population0;
         fitness := fitness0;
         fitness_record := fitness_record0;
         solution_record := solution_record0;
         t := 1 |}, u).

(** [while t < total_iterations: ...]; [tape] holds the draws of each
    generation in turn. *)
Fixpoint ga_loop (total_iterations : nat) (problem : Problem) (repair_operator : string)
    (u : list nat) (tape : list (list draws)) (st : ga_state) : result ga_state :=
  if (t st <? total_iterations)%nat then
    match tape with
    | [] => Raise Unfinished
    | ds :: tape' =>
        st' ← generation problem repair_operator u st ds;
        ga_loop total_iterations problem repair_operator u tape' st'
    end
  else Ok st.

Definition find_ga (k total_iterations : nat) (problem : Problem) (repair_operator : string)
    (shuffles : list (list nat)) (w : list Q) (tape : list (list draws))
  : result (list Z * list (list Z)) :=
  start ← ga_start k total_iterations problem shuffles w;
  st ← ga_loop total_iterations problem repair_operator (snd start) tape (fst start);
  Ok (fitness_record st, solution_record st).

(** The observation points of a run that started in [st0]: the end of the
    initialisation and the end of every generation. *)
Inductive observed (total_iterations : nat) (problem : Problem) (repair_operator : string)
    (u : list nat) (st0 : ga_state) : ga_state → Prop :=
| observed_start : observed total_iterations problem repair_operator u st0 st0
| observed_generation st ds st' :
    observed total_iterations problem repair_operator u st0 st →
    (t st < total_iterations)%nat →
    generation problem repair_operator u st ds = Ok st' →
    observed total_iterations problem repair_operator u st0 st'.

(** ** Comparisons and instances used in the statements *)

(** [x <= y] entry by entry, wherever both have an entry. *)
Definition le_pointwise (x y : list Z) : Prop :=
  ∀ i a c, x !! i = Some a → y !! i = Some c → a <= c.

(** Some capacity constraint is violated. *)
Definition violates (problem : Problem) (S : list Z) : Prop :=
  ∃ i row cap,
    r problem !! i = Some row ∧ b problem !! i = Some cap ∧ cap < dot row S.

(** The scenario of the specification: four items, one knapsack. *)
Definition scenario : Problem :=
  {| items := 4; knapsacks := 1;
     r := [[500; 300; 200; 400]]; b := [700]; p := [50; 80; 30; 60] |}.

(** Three items in two knapsacks. *)
Definition small_problem : Problem :=
  {| items := 3; knapsacks := 2;
     r := [[2; 3; 4]; [3; 1; 2]]; b := [6; 5]; p := [4; 5; 6] |}.

(** Two items in three knapsacks. *)
Definition three_knapsacks : Problem :=
  {| items := 2; knapsacks := 3;
     r := [[1; 1]; [1; 1]; [1; 4]]; b := [1; 1; 2]; p := [3; 4] |}.

(** A well-formed feasible chromosome of [problem]. *)
Definition chromosome (problem : Problem) (S : list Z) : Prop :=
  binary S ∧ length S = items problem ∧ feasible problem S.

(** Two items that cost nothing. *)
Definition free_items : Problem :=
  {| items := 2; knapsacks := 1; r := [[0; 0]]; b := [0]; p := [0; 0] |}.

(** A run of [find_ga] on four items in two knapsacks with a population of
    four: the shuffles of the initialisation and the draws of two
    generations (the second one retries once after a duplicate). *)
Definition ga_problem : Problem :=
  {| items := 4; knapsacks := 2;
     r := [[20; 30; 40; 10]; [30; 10; 20; 20]]; b := [62; 50];
     p := [12; 18; 25; 9] |}.

Definition ga_shuffles : list (list nat) :=
  [[2; 0; 1; 3]; [0; 3; 2; 1]; [2; 1; 0; 3]; [3; 2; 1; 0]]%nat.

Definition ga_tape : list (list draws) :=
  [ [ {| draw_1 := [2; 1]%nat; draw_2 := [1; 0]%nat;
         coins := [0; 0; 0; 1]; mutation := 0; flip := 2%nat |} ];
    [ {| draw_1 := [2; 1]%nat; draw_2 := [1; 0]%nat;
         coins := [0; 0; 0; 0]; mutation := 1; flip := 0%nat |};
      {| draw_1 := [2; 1]%nat; draw_2 := [1; 0]%nat;
         coins := [0; 1; 0; 0]; mutation := 1; flip := 0%nat |} ] ].

(** The states of that run: after the initialisation, after generation 1
    and after generation 2. *)
Definition ga_state_0 : ga_state :=
  {| population := [[0; 1; 0; 1]; [0; 1; 0; 0]; [1; 0; 0; 1]; [1; 1; 0; 0]];
     fitness := [27; 18; 21; 30];
     fitness_record := [30; 0; 0];
     solution_record := [[1; 1; 0; 0]; [0; 0; 0; 0]; [0; 0; 0; 0]];
     t := 1 |}.

Definition ga_state_1 : ga_state :=
  {| population := [[0; 1; 0; 1]; [1; 0; 1; 0]; [1; 0; 0; 1]; [1; 1; 0; 0]];
     fitness := [27; 18; 21; 30];
     fitness_record := [30; 37; 0];
     solution_record := [[1; 1; 0; 0]; [1; 0; 1; 0]; [0; 0; 0; 0]];
     t := 2 |}.

Definition ga_state_2 : ga_state :=
  {| population := [[0; 1; 0; 1]; [1; 0; 1; 0]; [1; 0; 0; 1]; [1; 1; 0; 0]];
     fitness := [27; 18; 21; 30];
     fitness_record := [30; 37; 37];
     solution_record := [[1; 1; 0; 0]; [1; 0; 1; 0]; [1; 0; 1; 0]];
     t := 3 |}.

(** The first [upto] entries of a record never decrease. *)
Definition nondecreasing_upto (record : list Z) (upto : nat) : Prop :=
  ∀ i, (1 ≤ i < upto)%nat →
    ∃ x y, record !! (i - 1)%nat = Some x ∧ record !! i = Some y ∧ x <= y.

(** The six feasible chromosomes of [small_problem]. *)
Definition six_rows : list (list Z) :=
  [[0; 0; 0]; [1; 0; 0]; [0; 1; 0]; [0; 0; 1]; [1; 1; 0]; [1; 0; 1]].

(** ** Notions used in the further properties *)

(** [S] with the items [js] selected. *)
Definition select_items (js : list nat) (S : list Z) : list Z :=
  fold_left (λ S j, <[j:=1]> S) js S.

(** [S] with the items [js] deselected. *)
Definition deselect_items (js : list nat) (S : list Z) : list Z :=
  fold_left (λ S j, <[j:=0]> S) js S.

(** Costs are non-negative (data model of the specification). *)
Definition nonneg_costs (problem : Problem) : Prop :=
  Forall (Forall (λ c, 0 <= c)) (r problem).

(** A computation that returns a value satisfying [P] or raises
    [IndexError], and nothing else. *)
Definition returns_or_index_error {A} (m : result A) (P : A → Prop) : Prop :=
  match m with
  | Ok a => P a
  | Raise e => e = IndexError
  end.


(** Profits are non-negative (data model of the specification). *)
Definition nonneg_profits (problem : Problem) : Prop :=
  Forall (λ x, 0 <= x) (p problem).

(** * Properties *)

(** ** The result monad and array access *)

Lemma bind_Ok {A B} (m : result A) (f : A → result B) (y : B) :
  m ≫= f = Ok y → ∃ x, m = Ok x ∧ f x = Ok y.
Proof. destruct m as [x|e]; simpl; [eauto | discriminate]. Qed.

Ltac inv_bind H :=
  let x := fresh "x" in
  let Hx := fresh "Hx" in
  apply bind_Ok in H; destruct H as (x & Hx & H).

Lemma getitem_Ok {A} (a : list A) (i : nat) (x : A) :
  getitem a i = Ok x ↔ a !! i = Some x.
Proof.
  unfold getitem. destruct (a !! i) as [y|]; split; intros H;
    try discriminate; congruence.
Qed.

Lemma setitem_Ok {A} (a : list A) (i : nat) (x : A) (a' : list A) :
  setitem a i x = Ok a' ↔ (i < length a)%nat ∧ a' = <[i:=x]> a.
Proof.
  unfold setitem. destruct (decide (i < length a)%nat); split.
  - intros [= <-]. auto.
  - intros [_ ->]. reflexivity.
  - discriminate.
  - intros [? _]. lia.
Qed.

Lemma setitem_lt {A} (a : list A) (i : nat) (x : A) :
  (i < length a)%nat → setitem a i x = Ok (<[i:=x]> a).
Proof. intros H. apply setitem_Ok. auto. Qed.

(** The column of a matrix whose rows are long enough. *)
Lemma column_Ok (M : list (list Z)) (n j : nat) :
  Forall (λ row, length row = n) M → (j < n)%nat →
  column M j = Ok (map (λ row, nth j row 0) M).
Proof.
  intros HM Hj. induction HM as [|row M Hrow _ IH]; [reflexivity|].
  simpl. destruct (lookup_lt_is_Some_2 row j) as [x Hx]; [lia|].
  unfold getitem at 1. rewrite Hx. simpl. rewrite IH. simpl.
  f_equal. f_equal. symmetry. apply nth_lookup_Some with (d := 0) in Hx. exact Hx.
Qed.

Lemma column_length (M : list (list Z)) (j : nat) (c : list Z) :
  column M j = Ok c → length c = length M.
Proof.
  revert c. induction M as [|row M IH]; intros c H; simpl in H.
  - injection H as <-. reflexivity.
  - inv_bind H. inv_bind H. injection H as <-. simpl. f_equal. eauto.
Qed.

(** ** Comparisons of arrays *)

Lemma all_less_equal_spec (x y : list Z) :
  all_less_equal x y = true ↔ le_pointwise x y.
Proof.
  unfold all_less_equal, le_pointwise. revert y.
  induction x as [|a x IH]; intros [|c y]; simpl.
  - split; [intros _ i ? ? H; discriminate | reflexivity].
  - split; [intros _ i ? ? H; discriminate | reflexivity].
  - split; [intros _ i ? ? _ H; discriminate | reflexivity].
  - rewrite andb_true_iff, Z.leb_le, IH. split.
    + intros [Hac H] [|i] a' c' Ha Hc; simpl in *.
      * congruence.
      * eauto.
    + intros H. split.
      * apply (H 0%nat); reflexivity.
      * intros i a' c' Ha Hc. apply (H (S i)); assumption.
Qed.

Lemma any_greater_all_less_equal (x y : list Z) :
  any_greater x y = negb (all_less_equal x y).
Proof.
  unfold any_greater, all_less_equal.
  induction (zip x y) as [|[a c] l IH]; simpl; [reflexivity|].
  rewrite IH, negb_andb. f_equal. rewrite Z.leb_antisym, negb_involutive. reflexivity.
Qed.

Lemma any_greater_false (x y : list Z) :
  any_greater x y = false ↔ le_pointwise x y.
Proof.
  rewrite any_greater_all_less_equal, negb_false_iff. apply all_less_equal_spec.
Qed.

Lemma any_greater_true (x y : list Z) :
  any_greater x y = true ↔
  ∃ i a c, x !! i = Some a ∧ y !! i = Some c ∧ c < a.
Proof.
  unfold any_greater. revert y.
  induction x as [|a x IH]; intros [|c y]; simpl.
  - split; [discriminate | intros (i & ? & ? & H & _); discriminate].
  - split; [discriminate | intros (i & ? & ? & H & _); discriminate].
  - split; [discriminate | intros (i & ? & ? & _ & H & _); discriminate].
  - rewrite orb_true_iff, Z.ltb_lt, IH. split.
    + intros [H | (i & a' & c' & Ha & Hc & H)].
      * exists 0%nat, a, c. auto.
      * exists (S i), a', c'. auto.
    + intros ([|i] & a' & c' & Ha & Hc & H); simpl in *.
      * left. congruence.
      * right. eauto 7.
Qed.

(** Feasibility is what the program tests on the usage vector. *)
Lemma feasible_row_sums (problem : Problem) (S : list Z) :
  feasible problem S ↔ le_pointwise (row_sums (r problem) S) (b problem).
Proof.
  unfold feasible, le_pointwise, row_sums. split.
  - intros H i a c Ha Hc. rewrite list_lookup_fmap in Ha.
    destruct (r problem !! i) as [row|] eqn:Hrow; [|discriminate].
    injection Ha as <-. eauto.
  - intros H i row cap Hrow Hcap. apply (H i); [|assumption].
    rewrite list_lookup_fmap, Hrow. reflexivity.
Qed.

Lemma feasible_any_greater (problem : Problem) (S : list Z) :
  feasible problem S ↔ any_greater (row_sums (r problem) S) (b problem) = false.
Proof. rewrite any_greater_false. apply feasible_row_sums. Qed.

Lemma violates_any_greater (problem : Problem) (S : list Z) :
  violates problem S ↔ any_greater (row_sums (r problem) S) (b problem) = true.
Proof.
  rewrite any_greater_true. unfold violates, row_sums. split.
  - intros (i & row & cap & Hrow & Hcap & H).
    exists i, (dot row S), cap. rewrite list_lookup_fmap, Hrow. auto.
  - intros (i & a & c & Ha & Hc & H). rewrite list_lookup_fmap in Ha.
    destruct (r problem !! i) as [row|] eqn:Hrow; [|discriminate].
    injection Ha as <-. eauto 7.
Qed.

Lemma violates_not_feasible (problem : Problem) (S : list Z) :
  violates problem S ↔ ¬ feasible problem S.
Proof.
  rewrite violates_any_greater, feasible_any_greater.
  destruct (any_greater _ _); split; intros H; congruence.
Qed.

(** ** Resource usage under a change of one bit *)

Lemma dot_nil_r (row : list Z) : dot row [] = 0.
Proof. destruct row; reflexivity. Qed.

Lemma dot_cons (a y : Z) (row S : list Z) :
  dot (a :: row) (y :: S) = a * y + dot row S.
Proof. reflexivity. Qed.

Lemma dot_insert (row S : list Z) (j : nat) (s x : Z) :
  S !! j = Some s →
  dot row (<[j:=x]> S) = dot row S + nth j row 0 * (x - s).
Proof.
  revert S j. induction row as [|a row IH]; intros S j Hs.
  - destruct j; simpl; unfold dot; simpl; lia.
  - destruct S as [|y S]; [discriminate|]. destruct j as [|j]; simpl in *.
    + injection Hs as ->. rewrite !dot_cons. lia.
    + rewrite !dot_cons, (IH S j Hs). lia.
Qed.

Lemma row_sums_insert (M : list (list Z)) (S : list Z) (j : nat) (s x : Z) :
  S !! j = Some s →
  row_sums M (<[j:=x]> S) =
  zip_with (λ a c, a + c * (x - s)) (row_sums M S) (map (λ row, nth j row 0) M).
Proof.
  intros Hs. induction M as [|row M IH]; [reflexivity|].
  simpl. rewrite IH, (dot_insert row S j s x Hs). reflexivity.
Qed.

Lemma row_sums_select (M : list (list Z)) (S : list Z) (j : nat) :
  S !! j = Some 0 →
  row_sums M (<[j:=1]> S) = vadd (row_sums M S) (map (λ row, nth j row 0) M).
Proof.
  intros Hs. rewrite (row_sums_insert M S j 0 1 Hs). unfold vadd.
  generalize (row_sums M S) as R, (map (λ row, nth j row 0) M) as c.
  induction R as [|a R IH]; intros [|x c]; simpl; try reflexivity.
  rewrite IH. f_equal. lia.
Qed.

Lemma row_sums_deselect (M : list (list Z)) (S : list Z) (j : nat) :
  S !! j = Some 1 →
  row_sums M (<[j:=0]> S) = vsub (row_sums M S) (map (λ row, nth j row 0) M).
Proof.
  intros Hs. rewrite (row_sums_insert M S j 1 0 Hs). unfold vsub.
  generalize (row_sums M S) as R, (map (λ row, nth j row 0) M) as c.
  induction R as [|a R IH]; intros [|x c]; simpl; try reflexivity.
  rewrite IH. f_equal. lia.
Qed.

(** A chromosome without a selected item uses nothing. *)
Lemma dot_unselected (row S : list Z) :
  binary S → (∀ j, S !! j ≠ Some 1) → dot row S = 0.
Proof.
  intros HS. revert row. induction HS as [|y S Hy _ IH]; intros row Hno.
  - apply dot_nil_r.
  - destruct row as [|a row]; [reflexivity|]. rewrite dot_cons.
    rewrite IH by (intros j; apply (Hno (Datatypes.S j))).
    destruct Hy as [-> | ->]; [lia|]. destruct (Hno 0%nat). reflexivity.
Qed.

Lemma dot_zeros (row : list Z) (n : nat) : dot row (np_zeros n) = 0.
Proof.
  apply dot_unselected.
  - apply Forall_replicate. auto.
  - intros j Hj. apply lookup_replicate in Hj as [? _]. discriminate.
Qed.

Lemma binary_insert (S : list Z) (j : nat) (x : Z) :
  binary S → x = 0 ∨ x = 1 → binary (<[j:=x]> S).
Proof. intros HS Hx. apply Forall_insert; assumption. Qed.

Lemma binary_zeros (n : nat) : binary (np_zeros n).
Proof. apply Forall_replicate. auto. Qed.

Lemma binary_lookup (S : list Z) (j : nat) (s : Z) :
  binary S → S !! j = Some s → s = 0 ∨ s = 1.
Proof. intros HS Hs. exact (proj1 (Forall_lookup _ S) HS j s Hs). Qed.

Lemma sanity_check_Ok (m : nat) (R caps : list Z) :
  any_greater R caps = false → sanity_check m R caps = Ok tt.
Proof. intros H. induction m as [|m IH]; simpl; [reflexivity|]. rewrite H. exact IH. Qed.

Lemma sanity_check_inv (m : nat) (R caps : list Z) (x : unit) :
  sanity_check m R caps = Ok x → (0 < m)%nat → any_greater R caps = false.
Proof.
  destruct m as [|m]; [lia|]. simpl. destruct (any_greater R caps); [discriminate|auto].
Qed.

(** ** The repair operators *)

Section Repair.

Variable problem : Problem.
Hypothesis Hwf : wf_problem problem.

Let n := items problem.

Lemma column_item (j : nat) :
  (j < n)%nat → column (r problem) j = Ok (map (λ row, nth j row 0) (r problem)).
Proof. intros Hj. apply (column_Ok _ n); [apply Hwf | assumption]. Qed.

(** The unrolled guard of the DROP loop. *)
Lemma drop_loop_done (us : list nat) (S R : list Z) :
  any_greater R (b problem) = false → drop_loop problem us S R = Ok (S, R).
Proof. intros H. destruct us; simpl; rewrite H; reflexivity. Qed.

(** The DROP loop, started on a chromosome whose selected items all lie
    ahead in the ranking, ends on a feasible chromosome before the ranking
    runs out. *)
Lemma drop_loop_spec (us : list nat) :
  nonneg_capacities problem →
  Forall (λ uj, (uj < n)%nat) us →
  ∀ S : list Z,
    binary S → length S = n →
    (∀ j, S !! j = Some 1 → j ∈ us) →
    ∃ S', drop_loop problem us S (row_sums (r problem) S)
            = Ok (S', row_sums (r problem) S')
          ∧ feasible problem S' ∧ binary S' ∧ length S' = n
          ∧ (∀ j, S' !! j = Some 1 → S !! j = Some 1)
          ∧ (feasible problem S → S' = S).
Proof.
  intros Hb Hus. induction Hus as [|uj us Huj _ IH]; intros S HS Hlen Hsel.
  - assert (Hfeas : feasible problem S).
    { intros i row cap _ Hcap. rewrite dot_unselected; [|assumption|].
      - exact (proj1 (Forall_lookup _ _) Hb i cap Hcap).
      - intros j Hj. apply Hsel in Hj. inversion Hj. }
    exists S. rewrite drop_loop_done by (apply feasible_any_greater; assumption).
    auto 6.
  - destruct (any_greater (row_sums (r problem) S) (b problem)) eqn:Hgt.
    2:{ exists S. rewrite drop_loop_done by assumption.
        repeat split; auto. apply feasible_any_greater. assumption. }
    simpl. rewrite Hgt.
    destruct (lookup_lt_is_Some_2 S uj) as [s Hs]; [lia|].
    unfold getitem. rewrite Hs. simpl.
    destruct (binary_lookup S uj s HS Hs) as [-> | ->]; simpl.
    + destruct (IH S HS Hlen) as (S' & Hrun & H).
      { intros j Hj. specialize (Hsel j Hj).
        apply elem_of_cons in Hsel as [-> | ?]; [congruence | assumption]. }
      exists S'. split; [exact Hrun | exact H].
    + rewrite setitem_lt by lia. simpl. rewrite column_item by assumption. simpl.
      rewrite <- row_sums_deselect by assumption.
      destruct (IH (<[uj:=0]> S)) as (S' & Hrun & Hfeas & Hbin & Hlen' & Hkeep & _).
      { apply binary_insert; auto. }
      { rewrite length_insert. assumption. }
      { intros j Hj. destruct (decide (j = uj)) as [-> | Hne].
        - rewrite list_lookup_insert_eq in Hj by lia. discriminate.
        - rewrite list_lookup_insert_ne in Hj by auto.
          specialize (Hsel j Hj). apply elem_of_cons in Hsel as [? | ?]; [contradiction | assumption]. }
      exists S'. repeat split; auto.
      * intros j Hj. specialize (Hkeep j Hj).
        destruct (decide (j = uj)) as [-> | Hne].
        -- rewrite list_lookup_insert_eq in Hkeep by lia. discriminate.
        -- rewrite list_lookup_insert_ne in Hkeep by auto. assumption.
      * intros Hfs. apply feasible_any_greater in Hfs. congruence.
Qed.

(** One step of the ADD loop keeps a feasible chromosome feasible and
    deselects nothing. *)
Lemma add_step_spec (u : list nat) (j uj : nat) (S : list Z) :
  u !! j = Some uj → (uj < n)%nat →
  binary S → length S = n → feasible problem S →
  ∃ S', add_step problem u (S, row_sums (r problem) S) j
          = Ok (S', row_sums (r problem) S')
        ∧ feasible problem S' ∧ binary S' ∧ length S' = n
        ∧ (∀ i, S !! i = Some 1 → S' !! i = Some 1)
        ∧ ((∀ i, S !! i = Some 0 → ¬ feasible problem (<[i:=1]> S)) → S' = S).
Proof.
  intros Hu Huj HS Hlen Hfeas. unfold add_step, getitem. rewrite Hu. simpl.
  destruct (lookup_lt_is_Some_2 S uj) as [s Hs]; [lia|]. rewrite Hs. simpl.
  destruct (binary_lookup S uj s HS Hs) as [-> | ->]; simpl.
  2:{ exists S. auto 7. }
  rewrite column_item by assumption. simpl.
  rewrite <- row_sums_select by assumption.
  destruct (all_less_equal _ _) eqn:Hfit.
  2:{ exists S. auto 7. }
  rewrite setitem_lt by lia. simpl.
  assert (Hfeas' : feasible problem (<[uj:=1]> S)).
  { apply feasible_row_sums, all_less_equal_spec. assumption. }
  exists (<[uj:=1]> S). repeat split; auto.
  - apply binary_insert; auto.
  - rewrite length_insert. assumption.
  - intros i Hi. destruct (decide (i = uj)) as [-> | Hne].
    + congruence.
    + rewrite list_lookup_insert_ne by auto. assumption.
  - intros Hfull. destruct (Hfull uj Hs Hfeas').
Qed.

Lemma add_loop_spec (u : list nat) (js : list nat) :
  Forall (λ j, ∃ uj, u !! j = Some uj ∧ (uj < n)%nat) js →
  ∀ S : list Z,
    binary S → length S = n → feasible problem S →
    ∃ S', add_loop problem u js (S, row_sums (r problem) S)
            = Ok (S', row_sums (r problem) S')
          ∧ feasible problem S' ∧ binary S' ∧ length S' = n
          ∧ (∀ i, S !! i = Some 1 → S' !! i = Some 1)
          ∧ ((∀ i, S !! i = Some 0 → ¬ feasible problem (<[i:=1]> S)) → S' = S).
Proof.
  intros Hjs. induction Hjs as [|j js (uj & Hu & Huj) _ IH]; intros S HS Hlen Hfeas.
  - exists S. simpl. auto 7.
  - destruct (add_step_spec u j uj S Hu Huj HS Hlen Hfeas)
      as (S1 & Hstep & Hfeas1 & HS1 & Hlen1 & Hkeep1 & Hsame1).
    destruct (IH S1 HS1 Hlen1 Hfeas1) as (S2 & Hrun & Hfeas2 & HS2 & Hlen2 & Hkeep2 & Hsame2).
    exists S2. simpl. rewrite Hstep. simpl. repeat split; auto.
    intros Hfull. specialize (Hsame1 Hfull). subst S1. auto.
Qed.

(** Positions [n - 1, ..., 1] of a ranking of the [n] items hold items. *)
Lemma range_down_items (u : list nat) :
  u ≡ₚ seq 0 n →
  Forall (λ j, ∃ uj, u !! j = Some uj ∧ (uj < n)%nat) (range_down (n - 1)).
Proof.
  intros Hu. apply Forall_forall. intros j Hj.
  unfold range_down in Hj.
  apply list_elem_of_In, in_rev, list_elem_of_In, elem_of_seq in Hj.
  assert (Hlen : length u = n) by (rewrite Hu; apply length_seq).
  destruct (lookup_lt_is_Some_2 u j) as [uj Huj]; [lia|].
  exists uj. split; [assumption|].
  assert (Hin : uj ∈ seq 0 n).
  { rewrite <- Hu. apply list_elem_of_lookup. eauto. }
  apply elem_of_seq in Hin. lia.
Qed.

Lemma ranking_items (u : list nat) :
  u ≡ₚ seq 0 n → Forall (λ uj, (uj < n)%nat) u.
Proof.
  intros Hu. apply Forall_forall. intros uj Huj. rewrite Hu in Huj.
  apply elem_of_seq in Huj. lia.
Qed.

Lemma ranking_complete (u : list nat) (S : list Z) (j : nat) (s : Z) :
  u ≡ₚ seq 0 n → length S = n → S !! j = Some s → j ∈ u.
Proof.
  intros Hu Hlen Hs. rewrite Hu. apply elem_of_seq.
  apply lookup_lt_Some in Hs. lia.
Qed.

End Repair.

Ltac solve_binary :=
  unfold binary;
  repeat first
    [ apply List.Forall_nil
    | apply List.Forall_cons; [first [left; reflexivity | right; reflexivity] |] ].

Lemma wf_scenario : wf_problem scenario.
Proof. split; try reflexivity. repeat constructor. Qed.

Lemma wf_small_problem : wf_problem small_problem.
Proof. split; try reflexivity. repeat constructor. Qed.

Lemma nonneg_small_problem : nonneg_capacities small_problem.
Proof. repeat constructor; simpl; lia. Qed.

Lemma feasible_dec (problem : Problem) (S : list Z) :
  {feasible problem S} + {¬ feasible problem S}.
Proof.
  destruct (any_greater (row_sums (r problem) S) (b problem)) eqn:H.
  - right. rewrite feasible_any_greater. congruence.
  - left. apply feasible_any_greater. assumption.
Qed.

(** The simple strategy, unfolded. *)
Lemma repair_simple (problem : Problem) (S : list Z) (u : list nat) :
  repair S problem "simple" u =
  if any_greater (row_sums (r problem) S) (b problem)
  then Ok (np_zeros (length S)) else Ok S.
Proof. reflexivity. Qed.

(** C7.  Simple repair: a chromosome that violates some capacity constraint
    is replaced by the all-zero vector of the same length; a chromosome
    that violates none is returned as it is. *)
Theorem simple_repair_correct (problem : Problem) (S : list Z) (u : list nat) :
  (violates problem S → repair S problem "simple" u = Ok (np_zeros (length S)))
  ∧ (feasible problem S → repair S problem "simple" u = Ok S).
Proof.
  rewrite repair_simple. split.
  - intros H. apply violates_any_greater in H. rewrite H. reflexivity.
  - intros H. apply feasible_any_greater in H. rewrite H. reflexivity.
Qed.

(** The scenario of the specification: the child [1,1,1,1] costs 1400
    against a capacity of 700 and is reset to [0,0,0,0]. *)
Lemma simple_repair_correct_witness :
  violates scenario [1; 1; 1; 1]
  ∧ repair [1; 1; 1; 1] scenario "simple" [] = Ok [0; 0; 0; 0].
Proof.
  assert (H : violates scenario [1; 1; 1; 1]).
  { exists 0%nat, [500; 300; 200; 400], 700. repeat split. }
  split; [exact H|].
  exact (proj1 (simple_repair_correct scenario [1; 1; 1; 1] []) H).
Defined.

(** C6.  Fancy repair on a chromosome [S] with its usage vector
    [R = r · S]: the DROP loop ends (before the ranking runs out) on a
    feasible chromosome; the ADD phase then ends on a chromosome that still
    selects everything the DROP phase left selected and is feasible; this
    chromosome is what [fancy_repair] returns, so the exception of the final
    check is not raised. *)
Theorem fancy_repair_correct (problem : Problem) (u : list nat) (S R : list Z) :
  wf_problem problem →
  nonneg_capacities problem →
  u ≡ₚ seq 0 (items problem) →
  binary S → length S = items problem →
  R = row_sums (r problem) S →
  ∃ S1 S2,
    drop_loop problem u S R = Ok (S1, row_sums (r problem) S1)
    ∧ feasible problem S1
    ∧ add_phase problem u (S1, row_sums (r problem) S1)
      = Ok (S2, row_sums (r problem) S2)
    ∧ (∀ j, S1 !! j = Some 1 → S2 !! j = Some 1)
    ∧ feasible problem S2
    ∧ fancy_repair S R problem u = Ok S2.
Proof.
  intros Hwf Hb Hu HS Hlen ->.
  destruct (drop_loop_spec problem Hwf u Hb (ranking_items problem u Hu) S HS Hlen)
    as (S1 & Hdrop & Hfeas1 & HS1 & Hlen1 & _).
  { intros j Hj. exact (ranking_complete problem u S j 1 Hu Hlen Hj). }
  destruct (add_loop_spec problem Hwf u _ (range_down_items problem u Hu) S1 HS1 Hlen1 Hfeas1)
    as (S2 & Hadd & Hfeas2 & HS2 & Hlen2 & Hkeep & _).
  exists S1, S2. unfold fancy_repair, add_phase. rewrite Hdrop. simpl.
  rewrite Hadd. simpl.
  rewrite sanity_check_Ok by (apply feasible_any_greater; assumption).
  repeat split; auto.
Qed.

(** An infeasible child of [small_problem] goes through both phases. *)
Lemma fancy_repair_correct_witness :
  ∃ S1 S2,
    drop_loop small_problem [0; 1; 2]%nat [1; 1; 1] [9; 6]
      = Ok (S1, row_sums (r small_problem) S1)
    ∧ feasible small_problem S1
    ∧ add_phase small_problem [0; 1; 2]%nat (S1, row_sums (r small_problem) S1)
      = Ok (S2, row_sums (r small_problem) S2)
    ∧ (∀ j, S1 !! j = Some 1 → S2 !! j = Some 1)
    ∧ feasible small_problem S2
    ∧ fancy_repair [1; 1; 1] [9; 6] small_problem [0; 1; 2]%nat = Ok S2.
Proof.
  apply (fancy_repair_correct small_problem [0; 1; 2]%nat [1; 1; 1] [9; 6]).
  - exact wf_small_problem.
  - exact nonneg_small_problem.
  - reflexivity.
  - solve_binary.
  - reflexivity.
  - reflexivity.
Defined.

Lemma feasible_by_test (problem : Problem) (S : list Z) :
  any_greater (row_sums (r problem) S) (b problem) = false → feasible problem S.
Proof. apply feasible_any_greater. Qed.

(** Fancy repair fills the slack of a feasible chromosome: the empty
    selection of [small_problem] comes back with item 2 selected. *)
Lemma repair_idempotence_counterexample :
  ¬ (∀ (problem : Problem) (operator : string) (u : list nat) (S : list Z),
       wf_problem problem → nonneg_capacities problem →
       u ≡ₚ seq 0 (items problem) →
       binary S → length S = items problem →
       operator = "simple"%string ∨ operator = "fancy"%string →
       feasible problem S →
       repair S problem operator u = Ok S).
Proof.
  intros H.
  specialize (H small_problem "fancy"%string [0; 1; 2]%nat [0; 0; 0]
                wf_small_problem nonneg_small_problem).
  assert (Hrun : repair [0; 0; 0] small_problem "fancy" [0; 1; 2]%nat = Ok [0; 0; 1])
    by reflexivity.
  rewrite Hrun in H.
  assert (Heq : Ok [0; 0; 1] = Ok [0; 0; 0]).
  { apply H.
    - reflexivity.
    - solve_binary.
    - reflexivity.
    - right. reflexivity.
    - apply feasible_by_test. reflexivity. }
  discriminate Heq.
Qed.

(** C3 (amended).  On a feasible chromosome [S] the simple strategy returns
    [S]; the DROP loop of the fancy strategy leaves [S] as it is, and the
    fancy strategy returns a feasible chromosome that selects every item [S]
    selects; it returns [S] itself when no unselected item can be added
    without violating a capacity constraint. *)
Theorem repair_of_feasible (problem : Problem) (u : list nat) (S : list Z) :
  wf_problem problem →
  u ≡ₚ seq 0 (items problem) →
  binary S → length S = items problem →
  feasible problem S →
  repair S problem "simple" u = Ok S
  ∧ drop_loop problem u S (row_sums (r problem) S) = Ok (S, row_sums (r problem) S)
  ∧ ∃ S', repair S problem "fancy" u = Ok S'
          ∧ feasible problem S'
          ∧ (∀ j, S !! j = Some 1 → S' !! j = Some 1)
          ∧ ((∀ j, S !! j = Some 0 → ¬ feasible problem (<[j:=1]> S)) → S' = S).
Proof.
  intros Hwf Hu HS Hlen Hfeas.
  assert (Hdrop : drop_loop problem u S (row_sums (r problem) S)
                  = Ok (S, row_sums (r problem) S)).
  { apply drop_loop_done. apply feasible_any_greater. assumption. }
  split.
  { rewrite repair_simple.
    rewrite (proj1 (feasible_any_greater problem S) Hfeas). reflexivity. }
  split; [exact Hdrop|].
  destruct (add_loop_spec problem Hwf u _ (range_down_items problem u Hu) S HS Hlen Hfeas)
    as (S' & Hadd & Hfeas' & _ & _ & Hkeep & Hsame).
  exists S'. unfold repair, fancy_repair, add_phase. simpl.
  rewrite Hdrop. simpl. rewrite Hadd. simpl.
  rewrite sanity_check_Ok by (apply feasible_any_greater; assumption).
  auto.
Qed.

Lemma repair_of_feasible_witness :
  repair [1; 0; 0] small_problem "simple" [0; 2; 1]%nat = Ok [1; 0; 0]
  ∧ drop_loop small_problem [0; 2; 1]%nat [1; 0; 0] (row_sums (r small_problem) [1; 0; 0])
    = Ok ([1; 0; 0], row_sums (r small_problem) [1; 0; 0])
  ∧ ∃ S', repair [1; 0; 0] small_problem "fancy" [0; 2; 1]%nat = Ok S'
          ∧ feasible small_problem S'
          ∧ (∀ j, [1; 0; 0] !! j = Some 1 → S' !! j = Some 1)
          ∧ ((∀ j, [1; 0; 0] !! j = Some 0 → ¬ feasible small_problem (<[j:=1]> [1; 0; 0]))
             → S' = [1; 0; 0]).
Proof.
  apply (repair_of_feasible small_problem [0; 2; 1]%nat [1; 0; 0]).
  - exact wf_small_problem.
  - simpl. apply perm_skip, perm_swap.
  - solve_binary.
  - reflexivity.
  - apply feasible_by_test. reflexivity.
Defined.

(** The ADD loop reads the ranking only at the positions it is given; the
    ADD phase is given [n - 1, ..., 1], so entry 0 of the ranking plays no
    part in it. *)
Lemma add_loop_positions (problem : Problem) (u u' : list nat) (js : list nat)
    (SR : list Z * list Z) :
  Forall (λ j, u !! j = u' !! j) js →
  add_loop problem u js SR = add_loop problem u' js SR.
Proof.
  intros Hjs. revert SR. induction Hjs as [|j js Hj _ IH]; intros SR; [reflexivity|].
  simpl. unfold add_step, getitem. rewrite Hj.
  destruct (add_step problem u' SR j) as [SR'|e] eqn:Hstep;
    unfold add_step, getitem in Hstep; rewrite Hstep; simpl; auto.
Qed.

Lemma add_phase_ignores_first_rank (problem : Problem) (x y : nat) (u : list nat)
    (SR : list Z * list Z) :
  add_phase problem (x :: u) SR = add_phase problem (y :: u) SR.
Proof.
  unfold add_phase. apply add_loop_positions. apply Forall_forall. intros j Hj.
  unfold range_down in Hj.
  apply list_elem_of_In, in_rev, list_elem_of_In, elem_of_seq in Hj.
  destruct j as [|j]; [lia | reflexivity].
Qed.

(** C5.  On [small_problem] with the ranking [0, 2, 1] and the empty
    selection, the ADD phase visits positions 2 and 1 only: it selects item
    1, rejects item 2, and never looks at item 0 (position 0 of the
    ranking), which is unselected and would still fit. *)
Theorem add_phase_skips_first_rank :
  add_phase small_problem [0; 2; 1]%nat ([0; 0; 0], [0; 0]) = Ok ([0; 1; 0], [3; 1])
  ∧ fancy_repair [0; 0; 0] [0; 0] small_problem [0; 2; 1]%nat = Ok [0; 1; 0]
  ∧ [0; 2; 1]%nat !! 0%nat = Some 0%nat
  ∧ [0; 1; 0] !! 0%nat = Some 0
  ∧ feasible small_problem (<[0%nat:=1]> [0; 1; 0]).
Proof.
  repeat split. apply feasible_by_test. reflexivity.
Qed.

(** ** The utility ranking *)





(** A solver vector with fewer than two entries stops the preprocessing. *)
Lemma repair_preprocess_short (problem : Problem) (w : list Q) :
  (length w ≤ 1)%nat → repair_preprocess problem w = Raise IndexError.
Proof.
  intros Hw. unfold repair_preprocess. simpl.
  destruct w as [|w0 [|w1 w]]; simpl in *; [reflexivity | | lia].
  unfold getitem. simpl. destruct (r problem !! 0%nat); reflexivity.
Qed.

(** C4.  The denominator of the utility is built from knapsacks 0 and 1
    only.  With one knapsack the read of [w[1]] raises [IndexError]; with
    three knapsacks the third term is missing and the ranking differs from
    the one over all knapsacks. *)
Theorem utility_sums_two_knapsacks :
  repair_preprocess scenario [1]%Q = Raise IndexError
  ∧ spec_repair_preprocess scenario [1]%Q = Ok [0; 2; 3; 1]%nat
  ∧ weighted_cost three_knapsacks [1; 1; 1]%Q (seq 0 2) (replicate 2 0%Q)
    = Ok [0 + 1 * 1 + 1 * 1; 0 + 1 * 1 + 1 * 1]%Q
  ∧ repair_preprocess three_knapsacks [1; 1; 1]%Q = Ok [0; 1]%nat
  ∧ spec_repair_preprocess three_knapsacks [1; 1; 1]%Q = Ok [1; 0]%nat.
Proof. repeat split. Qed.

(** ** Binary tournament selection *)

Lemma take_at_Ok (pool draw : list nat) :
  Forall (λ i, (i < length pool)%nat) draw →
  ∃ xs, take_at pool draw = Ok xs
        ∧ length xs = length draw
        ∧ Forall (λ x, x ∈ pool) xs.
Proof.
  intros Hdraw. induction Hdraw as [|i draw Hi _ (xs & Hxs & Hlen & Hin)].
  - exists []. simpl. auto.
  - destruct (lookup_lt_is_Some_2 pool i Hi) as [x Hx].
    exists (x :: xs). simpl. unfold getitem. rewrite Hx. simpl. rewrite Hxs. simpl.
    repeat split; [congruence|]. constructor; [|assumption].
    apply list_elem_of_lookup. eauto.
Qed.

(** Drawing positions from [0, ..., k - 1] returns the positions. *)
Lemma take_at_seq (k : nat) (draw : list nat) :
  Forall (λ i, (i < k)%nat) draw → take_at (seq 0 k) draw = Ok draw.
Proof.
  intros Hdraw. induction Hdraw as [|i draw Hi _ IH]; [reflexivity|].
  simpl. unfold getitem. rewrite lookup_seq_lt by assumption. simpl.
  rewrite IH. reflexivity.
Qed.

Lemma delete_from_seq (i k : nat) (idxs : list nat) :
  delete_from i (seq i k) idxs = filter (λ x, x ∉ idxs) (seq i k).
Proof.
  revert i. induction k as [|k IH]; intros i; [reflexivity|].
  simpl. rewrite IH. destruct (bool_decide_reflect (i ∈ idxs)) as [Hi | Hi].
  - rewrite filter_cons_False by (intros Hni; exact (Hni Hi)). reflexivity.
  - rewrite filter_cons_True by assumption. reflexivity.
Qed.

Lemma length_without (k : nat) (idxs : list nat) :
  NoDup idxs → Forall (λ i, (i < k)%nat) idxs →
  length (filter (λ x, x ∉ idxs) (seq 0 k)) = (k - length idxs)%nat.
Proof.
  intros Hnd Hlt.
  assert (Hin : filter (λ x, x ∈ idxs) (seq 0 k) ≡ₚ idxs).
  { apply NoDup_Permutation.
    - apply NoDup_filter, NoDup_seq.
    - assumption.
    - intros x. rewrite list_elem_of_filter, elem_of_seq. split; [tauto|].
      intros Hx. split; [assumption|].
      pose proof (proj1 (Forall_forall _ _) Hlt x Hx). simpl in *. lia. }
  pose proof (filter_app_complement (λ x, x ∈ idxs) (seq 0 k)) as Hall.
  apply Permutation_length in Hall. rewrite length_app, Hin, length_seq in Hall.
  change (λ x, ¬ x ∈ idxs) with (λ x, x ∉ idxs) in Hall. lia.
Qed.

Lemma take_values_Ok (a : list Z) (idxs : list nat) :
  Forall (λ i, (i < length a)%nat) idxs →
  ∃ xs, take_values a idxs = Ok xs ∧ length xs = length idxs.
Proof.
  intros Hidxs. induction Hidxs as [|i idxs Hi _ (xs & Hxs & Hlen)].
  - exists []. auto.
  - destruct (lookup_lt_is_Some_2 a i Hi) as [x Hx].
    exists (x :: xs). simpl. unfold getitem. rewrite Hx. simpl. rewrite Hxs. simpl.
    split; congruence.
Qed.

Lemma argbest_bound (better : Z → Z → bool) (a : list Z) (i best_i : nat) (best : Z) :
  (best_i < i)%nat → (argbest better a i best_i best < i + length a)%nat.
Proof.
  revert i best_i best. induction a as [|x a IH]; intros i best_i best Hlt; simpl.
  - lia.
  - destruct (better x best).
    + specialize (IH (S i) i x). lia.
    + specialize (IH (S i) best_i best). lia.
Qed.

Lemma argmax_Ok (a : list Z) :
  a ≠ [] → ∃ w, argmax a = Ok w ∧ (w < length a)%nat.
Proof.
  destruct a as [|x a]; [congruence|]. intros _. eexists. split; [reflexivity|].
  pose proof (argbest_bound (λ y best, best <? y) a 1 0 x). simpl. lia.
Qed.

Lemma argmin_Ok (a : list Z) :
  a ≠ [] → ∃ w, argmin a = Ok w ∧ (w < length a)%nat.
Proof.
  destruct a as [|x a]; [congruence|]. intros _. eexists. split; [reflexivity|].
  pose proof (argbest_bound (λ y best, y <? best) a 1 0 x). simpl. lia.
Qed.

Lemma argmin_inv (a : list Z) (w : nat) :
  argmin a = Ok w → (w < length a)%nat.
Proof.
  intros H. destruct a as [|x a]; [discriminate|].
  destruct (argmin_Ok (x :: a)) as (w' & Hw' & Hlt); [discriminate|]. congruence.
Qed.

(** The winner of a non-empty pool is one of its members. *)
Lemma winner_Ok (tournament_fitness : list Z) (T : list nat) :
  T ≠ [] → Forall (λ i, (i < length tournament_fitness)%nat) T →
  ∃ f w parent,
    take_values tournament_fitness T = Ok f
    ∧ argmax f = Ok w
    ∧ getitem T w = Ok parent
    ∧ parent ∈ T.
Proof.
  intros Hne HT. destruct (take_values_Ok tournament_fitness T HT) as (f & Hf & Hlen).
  destruct (argmax_Ok f) as (w & Hw & Hlt).
  { intros ->. destruct T; [congruence | discriminate]. }
  destruct (lookup_lt_is_Some_2 T w) as [parent Hparent]; [lia|].
  exists f, w, parent. repeat split; auto.
  - apply getitem_Ok. assumption.
  - apply list_elem_of_lookup. eauto.
Qed.

(** C9.  For a population of [k >= 4] rows and a fitness vector of the same
    length, whatever the generator draws, the pools [T_1] and [T_2] share no
    row index, each parent comes from its own pool, and the two parents
    differ. *)
Theorem tournament_disjoint (population : list (list Z)) (tournament_fitness : list Z)
    (n : nat) (draw_1 draw_2 : list nat) :
  (4 ≤ length population)%nat →
  Forall (λ row, length row = n) population → (0 < n)%nat →
  length tournament_fitness = length population →
  valid_draw (length population) 2 draw_1 →
  valid_draw (length population - 2) 2 draw_2 →
  ∃ T_1 T_2 parent_1 parent_2,
    tournament_pools population draw_1 draw_2 = Ok (T_1, T_2)
    ∧ (∀ x, x ∈ T_1 → x ∉ T_2)
    ∧ binary_tournament_selection population tournament_fitness draw_1 draw_2
      = Ok (parent_1, parent_2)
    ∧ parent_1 ∈ T_1 ∧ parent_2 ∈ T_2
    ∧ parent_1 ≠ parent_2.
Proof.
  intros Hk Hrows Hn Hfit (Hlen1 & Hnd1 & Hlt1) (Hlen2 & Hnd2 & Hlt2).
  set (k := length population) in *.
  assert (Hpools : ∃ T_2, tournament_pools population draw_1 draw_2 = Ok (draw_1, T_2)
                          ∧ length T_2 = 2%nat
                          ∧ Forall (λ x, x ∈ filter (λ x, x ∉ draw_1) (seq 0 k)) T_2).
  { unfold tournament_pools. rewrite (column_Ok population n 0 Hrows Hn). simpl.
    rewrite length_map. fold k. unfold choice.
    rewrite length_seq. destruct (decide (2 ≤ k)%nat); [|lia].
    rewrite take_at_seq by assumption. simpl.
    unfold np_delete. rewrite length_seq.
    assert (Hall : forallb (λ i, (i <? k)%nat) draw_1 = true).
    { apply forallb_forall. intros i Hi. apply Nat.ltb_lt.
      apply list_elem_of_In in Hi. exact (proj1 (Forall_forall _ _) Hlt1 i Hi). }
    rewrite Hall. simpl. rewrite delete_from_seq.
    pose proof (length_without k draw_1 Hnd1 Hlt1) as Hpool. rewrite Hlen1 in Hpool.
    destruct (decide (2 ≤ length (filter (λ x, x ∉ draw_1) (seq 0 k)))%nat); [|lia].
    destruct (take_at_Ok (filter (λ x, x ∉ draw_1) (seq 0 k)) draw_2)
      as (T_2 & HT2 & HlenT2 & HinT2).
    { rewrite Hpool. assumption. }
    exists T_2. rewrite HT2. simpl. repeat split; [congruence | assumption]. }
  destruct Hpools as (T_2 & Hpools & HlenT2 & HinT2).
  assert (Hdisj : ∀ x, x ∈ draw_1 → x ∉ T_2).
  { intros x Hx1 Hx2. pose proof (proj1 (Forall_forall _ _) HinT2 x Hx2) as Hx.
    apply list_elem_of_filter in Hx as [Hx _]. contradiction. }
  destruct (winner_Ok tournament_fitness draw_1) as (f1 & w1 & parent_1 & Hf1 & Hw1 & Hp1 & Hin1).
  { intros ->. discriminate. }
  { rewrite Hfit. assumption. }
  destruct (winner_Ok tournament_fitness T_2) as (f2 & w2 & parent_2 & Hf2 & Hw2 & Hp2 & Hin2).
  { intros ->. discriminate. }
  { rewrite Hfit. fold k. eapply Forall_impl; [exact HinT2|]. simpl. intros x Hx.
    apply list_elem_of_filter in Hx as [_ Hx]. apply elem_of_seq in Hx. lia. }
  exists draw_1, T_2, parent_1, parent_2. repeat split; auto.
  - unfold binary_tournament_selection. rewrite Hpools. simpl.
    rewrite Hf1. simpl. rewrite Hw1. simpl. rewrite Hp1. simpl.
    rewrite Hf2. simpl. rewrite Hw2. simpl. rewrite Hp2. reflexivity.
  - intros ->. exact (Hdisj parent_2 Hin1 Hin2).
Qed.

(** Six rows with six distinct fitness values, as in the scenario of the
    specification. *)
Lemma tournament_disjoint_witness :
  ∃ T_1 T_2 parent_1 parent_2,
    tournament_pools six_rows [4; 0]%nat [1; 2]%nat = Ok (T_1, T_2)
    ∧ (∀ x, x ∈ T_1 → x ∉ T_2)
    ∧ binary_tournament_selection six_rows [0; 4; 5; 6; 9; 10] [4; 0]%nat [1; 2]%nat
      = Ok (parent_1, parent_2)
    ∧ parent_1 ∈ T_1 ∧ parent_2 ∈ T_2
    ∧ parent_1 ≠ parent_2.
Proof.
  apply (tournament_disjoint six_rows [0; 4; 5; 6; 9; 10] 3 [4; 0]%nat [1; 2]%nat).
  - simpl. lia.
  - repeat constructor.
  - lia.
  - reflexivity.
  - split; [reflexivity|]. split; [|repeat constructor; simpl; lia].
    apply (bool_decide_unpack _). vm_compute. exact I.
  - split; [reflexivity|]. split; [|repeat constructor; simpl; lia].
    apply (bool_decide_unpack _). vm_compute. exact I.
Defined.

(** ** What a run preserves *)

Section Run.

Variable problem : Problem.
Hypothesis Hwf : wf_problem problem.

(** A usage vector that passed the final check belongs to a feasible
    chromosome. *)
Lemma checked_feasible (S : list Z) (x : unit) :
  sanity_check (knapsacks problem) (row_sums (r problem) S) (b problem) = Ok x →
  feasible problem S.
Proof.
  intros H. destruct (knapsacks problem) as [|m] eqn:Hm.
  - intros i row cap Hrow _. apply lookup_lt_Some in Hrow.
    rewrite (wf_rows problem Hwf), Hm in Hrow. lia.
  - apply feasible_any_greater.
    apply (sanity_check_inv (Datatypes.S m) _ _ x H). lia.
Qed.

Lemma init_scan_inv (rest : list nat) :
  ∀ (S : list Z) (SR : list Z * list Z),
    init_scan problem rest S (row_sums (r problem) S) = Ok SR →
    binary S → length S = items problem →
    binary (fst SR) ∧ length (fst SR) = items problem
    ∧ snd SR = row_sums (r problem) (fst SR).
Proof.
  induction rest as [|j rest IH]; intros S SR H HS Hlen; simpl in H; [discriminate|].
  inv_bind H. apply getitem_Ok in Hx.
  assert (Hj : (j < items problem)%nat) by (apply lookup_lt_Some in Hx; lia).
  destruct (x =? 0) eqn:Hx0; [|injection H as <-; auto].
  apply Z.eqb_eq in Hx0. subst x.
  rewrite (column_item problem Hwf j Hj) in H. simpl in H.
  rewrite <- row_sums_select in H by assumption.
  destruct (all_less_equal _ _); [|injection H as <-; auto].
  rewrite setitem_lt in H by lia. simpl in H.
  apply IH in H; [assumption | |].
  - apply binary_insert; auto.
  - rewrite length_insert. assumption.
Qed.

Lemma init_row_inv (T : list nat) (S : list Z) :
  init_row problem T = Ok S → chromosome problem S.
Proof.
  unfold init_row. intros H. inv_bind H. inv_bind H. injection H as <-.
  apply init_scan_inv in Hx as (HS & Hlen & HR).
  - rewrite HR in Hx0. unfold chromosome. eauto using checked_feasible.
  - apply binary_zeros.
  - apply length_replicate.
Qed.

Lemma initialize_pop_inv (N : nat) :
  ∀ (shuffles : list (list nat)) (rows : list (list Z)),
    initialize_pop N problem shuffles = Ok rows →
    Forall (chromosome problem) rows ∧ length rows = N.
Proof.
  induction N as [|N IH]; intros shuffles rows H; simpl in H.
  - injection H as <-. auto.
  - destruct shuffles as [|T shuffles]; [discriminate|].
    inv_bind H. inv_bind H. injection H as <-.
    apply init_row_inv in Hx. apply IH in Hx0 as [Hrows Hlen].
    split; [constructor; assumption | simpl; congruence].
Qed.

Lemma drop_loop_inv (us : list nat) :
  ∀ (S : list Z) (SR : list Z * list Z),
    drop_loop problem us S (row_sums (r problem) S) = Ok SR →
    binary S → length S = items problem →
    binary (fst SR) ∧ length (fst SR) = items problem
    ∧ snd SR = row_sums (r problem) (fst SR).
Proof.
  induction us as [|uj us IH]; intros S SR H HS Hlen; simpl in H.
  - destruct (any_greater _ _); [discriminate | injection H as <-; auto].
  - destruct (any_greater _ _); [|injection H as <-; auto].
    inv_bind H. apply getitem_Ok in Hx.
    assert (Hj : (uj < items problem)%nat) by (apply lookup_lt_Some in Hx; lia).
    destruct (x =? 1) eqn:Hx1; [|eauto].
    apply Z.eqb_eq in Hx1. subst x.
    rewrite setitem_lt in H by lia. simpl in H.
    rewrite (column_item problem Hwf uj Hj) in H. simpl in H.
    rewrite <- row_sums_deselect in H by assumption.
    apply IH in H; [assumption | |].
    + apply binary_insert; auto.
    + rewrite length_insert. assumption.
Qed.

Lemma add_step_inv (u : list nat) (j : nat) (S : list Z) (SR : list Z * list Z) :
  add_step problem u (S, row_sums (r problem) S) j = Ok SR →
  binary S → length S = items problem →
  binary (fst SR) ∧ length (fst SR) = items problem
  ∧ snd SR = row_sums (r problem) (fst SR).
Proof.
  unfold add_step. simpl. intros H HS Hlen.
  inv_bind H. inv_bind H. apply getitem_Ok in Hx0.
  assert (Hj : (x < items problem)%nat) by (apply lookup_lt_Some in Hx0; lia).
  destruct (x0 =? 0) eqn:Hx1; [|injection H as <-; auto].
  apply Z.eqb_eq in Hx1. subst x0.
  rewrite (column_item problem Hwf x Hj) in H. simpl in H.
  rewrite <- row_sums_select in H by assumption.
  destruct (all_less_equal _ _); [|injection H as <-; auto].
  rewrite setitem_lt in H by lia. simpl in H. injection H as <-. simpl.
  repeat split.
  - apply binary_insert; auto.
  - rewrite length_insert. assumption.
Qed.

Lemma add_loop_inv (u : list nat) (js : list nat) :
  ∀ (S : list Z) (SR : list Z * list Z),
    add_loop problem u js (S, row_sums (r problem) S) = Ok SR →
    binary S → length S = items problem →
    binary (fst SR) ∧ length (fst SR) = items problem
    ∧ snd SR = row_sums (r problem) (fst SR).
Proof.
  induction js as [|j js IH]; intros S SR H HS Hlen; simpl in H.
  - injection H as <-. auto.
  - inv_bind H. apply add_step_inv in Hx as (HS1 & Hlen1 & HR1); [|assumption..].
    destruct x as [S1 R1]. simpl in *. subst R1. eauto.
Qed.

(** Whatever the ranking, a chromosome [fancy_repair] returns is feasible. *)
Lemma fancy_repair_inv (u : list nat) (S S' : list Z) :
  fancy_repair S (row_sums (r problem) S) problem u = Ok S' →
  binary S → length S = items problem →
  chromosome problem S'.
Proof.
  unfold fancy_repair, add_phase. intros H HS Hlen.
  inv_bind H. apply drop_loop_inv in Hx as (HS1 & Hlen1 & HR1); [|assumption..].
  destruct x as [S1 R1]. simpl in *. subst R1.
  inv_bind H. apply add_loop_inv in Hx as (HS2 & Hlen2 & HR2); [|assumption..].
  destruct x as [S2 R2]. simpl in *. subst R2.
  inv_bind H. injection H as <-. unfold chromosome. eauto using checked_feasible.
Qed.

Lemma feasible_zeros (k : nat) :
  nonneg_capacities problem → feasible problem (np_zeros k).
Proof.
  intros Hb i row cap _ Hcap. rewrite dot_zeros.
  exact (proj1 (Forall_lookup _ _) Hb i cap Hcap).
Qed.

Lemma repair_inv (operator : string) (u : list nat) (S S' : list Z) :
  nonneg_capacities problem →
  repair S problem operator u = Ok S' →
  binary S → length S = items problem →
  chromosome problem S'.
Proof.
  unfold repair. intros Hb H HS Hlen.
  destruct (String.eqb operator "simple").
  - destruct (any_greater _ _) eqn:Hgt; injection H as <-.
    + repeat split.
      * apply binary_zeros.
      * rewrite <- Hlen. apply length_replicate.
      * apply feasible_zeros. assumption.
    + repeat split; auto. apply feasible_any_greater. assumption.
  - destruct (String.eqb operator "fancy"); [|discriminate].
    eauto using fancy_repair_inv.
Qed.

End Run.

(** ** Crossover, mutation and the making of a child *)

Lemma crossover_loop_inv (count : nat) :
  ∀ (i : nat) (parent_1 parent_2 coins C C' : list Z),
    crossover_loop count i parent_1 parent_2 coins C = Ok C' →
    binary parent_1 → binary parent_2 → binary C →
    binary C' ∧ length C' = length C.
Proof.
  induction count as [|count IH]; intros i parent_1 parent_2 coins C C' H H1 H2 HC;
    simpl in H.
  - injection H as <-. auto.
  - destruct coins as [|coin coins]; [discriminate|].
    inv_bind H. inv_bind H. apply setitem_Ok in Hx0 as [_ ->].
    apply IH in H; try assumption.
    + rewrite length_insert in H. exact H.
    + apply binary_insert; [assumption|].
      destruct (coin =? 0); apply getitem_Ok in Hx; eauto using binary_lookup.
Qed.

Lemma uniform_crossover_inv (parent_1 parent_2 coins C : list Z) :
  uniform_crossover parent_1 parent_2 coins = Ok C →
  binary parent_1 → binary parent_2 →
  binary C ∧ length C = length parent_1.
Proof.
  unfold uniform_crossover. intros H H1 H2.
  apply crossover_loop_inv in H; auto using binary_zeros.
  unfold np_zeros in H. rewrite length_replicate in H. exact H.
Qed.

Lemma mutate_inv (child : list Z) (mutation : Z) (i : nat) (child' : list Z) :
  mutate child mutation i = Ok child' →
  binary child → binary child' ∧ length child' = length child.
Proof.
  unfold mutate. intros H Hc.
  destruct (mutation =? 1); [injection H as <-; auto|].
  destruct (decide (length child = 0%nat)); [discriminate|].
  inv_bind H.
  destruct (x =? 0); apply setitem_Ok in H as [_ ->];
    rewrite length_insert; split; auto using binary_insert.
Qed.

Section Generation.

Variable problem : Problem.
Hypothesis Hwf : wf_problem problem.
Hypothesis Hb : nonneg_capacities problem.
Variable repair_operator : string.
Variable u : list nat.

Lemma make_child_inv (population : list (list Z)) (fitness : list Z) (d : draws)
    (C : list Z) :
  Forall (chromosome problem) population →
  make_child problem repair_operator u population fitness d = Ok C →
  chromosome problem C.
Proof.
  unfold make_child. intros Hpop H.
  inv_bind H. inv_bind H. inv_bind H. inv_bind H. inv_bind H.
  apply getitem_Ok in Hx0, Hx1.
  destruct (proj1 (Forall_lookup _ _) Hpop _ _ Hx0) as (HP1 & Hlen1 & _).
  destruct (proj1 (Forall_lookup _ _) Hpop _ _ Hx1) as (HP2 & _ & _).
  apply uniform_crossover_inv in Hx2 as [HC Hlen]; [|assumption..].
  apply mutate_inv in Hx3 as [HC' Hlen']; [|assumption].
  eapply repair_inv; eauto. congruence.
Qed.

Lemma reject_duplicates_inv (population : list (list Z)) (fitness : list Z)
    (retries : list draws) :
  Forall (chromosome problem) population →
  ∀ C C' : list Z,
    reject_duplicates problem repair_operator u population fitness C retries = Ok C' →
    chromosome problem C →
    chromosome problem C' ∧ C' ∉ population.
Proof.
  intros Hpop. induction retries as [|d retries IH]; intros C C' H HC; simpl in H.
  - destruct (bool_decide_reflect (C ∈ population)); [discriminate|].
    injection H as <-. auto.
  - destruct (bool_decide_reflect (C ∈ population)).
    + inv_bind H. eauto using make_child_inv.
    + injection H as <-. auto.
Qed.

(** What the end of a generation changes: at most one row of the
    population, entry [t] of the records, and [t]. *)
Lemma replace_and_record_inv (st st' : ga_state) (C : list Z) :
  replace_and_record problem st C = Ok st' →
  (population st' = population st
   ∨ ∃ S_prime, population st' = <[S_prime:=C]> (population st))
  ∧ fitness st' = fitness st
  ∧ t st' = S (t st)
  ∧ ∃ best, fitness_record st !! t st = Some best
            ∧ fitness_record st' = <[t st:=Z.max best (evaluate_child_fitness C problem)]>
                                     (fitness_record st).
Proof.
  unfold replace_and_record. intros H.
  inv_bind H. inv_bind H. inv_bind H. inv_bind H. inv_bind H. inv_bind H.
  injection H as <-. simpl. apply getitem_Ok in Hx2.
  repeat split.
  - destruct (x0 <? _); [right | left; congruence].
    apply setitem_Ok in Hx1 as [_ ->]. eauto.
  - exists x2. split; [assumption|].
    destruct (x2 <? _) eqn:Hlt.
    + apply setitem_Ok in Hx3 as [_ ->]. apply Z.ltb_lt in Hlt.
      rewrite Z.max_r by lia. reflexivity.
    + injection Hx3 as <-. apply Z.ltb_ge in Hlt. rewrite Z.max_l by lia.
      symmetry. apply list_insert_id. assumption.
Qed.

Lemma generation_inv (st st' : ga_state) (ds : list draws) :
  generation problem repair_operator u st ds = Ok st' →
  Forall (chromosome problem) (population st) →
  Forall (chromosome problem) (population st').
Proof.
  unfold generation. intros H Hpop.
  inv_bind H. inv_bind H. inv_bind H. inv_bind H.
  destruct ds as [|d retries]; [discriminate|].
  inv_bind H. inv_bind H.
  apply make_child_inv in Hx3; [|assumption].
  apply reject_duplicates_inv in Hx4 as [HC _]; [|assumption..].
  apply replace_and_record_inv in H as ([Hsame | [S_prime Hnew]] & _); simpl in *.
  - rewrite Hsame. assumption.
  - rewrite Hnew. apply Forall_insert; assumption.
Qed.

Lemma observed_inv (total_iterations : nat) (st0 st : ga_state) :
  observed total_iterations problem repair_operator u st0 st →
  Forall (chromosome problem) (population st0) →
  Forall (chromosome problem) (population st).
Proof.
  intros Hobs Hpop. induction Hobs as [|st ds st' _ IH _ Hgen]; [assumption|].
  eauto using generation_inv.
Qed.

End Generation.

(** ** Runs of [find_ga] *)

Lemma observed_trans (total_iterations : nat) (problem : Problem) (op : string)
    (u : list nat) (st0 st1 st2 : ga_state) :
  observed total_iterations problem op u st0 st1 →
  observed total_iterations problem op u st1 st2 →
  observed total_iterations problem op u st0 st2.
Proof.
  intros H01 H12. induction H12 as [|st ds st' _ IH Hlt Hgen]; [assumption|].
  eapply observed_generation; eauto.
Qed.

(** The state in which the loop of [find_ga] ends is an observation point,
    and the loop only ends once [t] has reached [total_iterations]. *)
Lemma ga_loop_observed (total_iterations : nat) (problem : Problem) (op : string)
    (u : list nat) (tape : list (list draws)) :
  ∀ st st' : ga_state,
    ga_loop total_iterations problem op u tape st = Ok st' →
    observed total_iterations problem op u st st'
    ∧ (total_iterations ≤ t st')%nat.
Proof.
  induction tape as [|ds tape IH]; intros st st' H; simpl in H.
  - destruct (Nat.ltb_spec (t st) total_iterations); [discriminate|].
    injection H as <-. split; [constructor | assumption].
  - destruct (Nat.ltb_spec (t st) total_iterations).
    + inv_bind H. apply IH in H as [Hobs Hend]. split; [|assumption].
      eapply observed_trans; [|exact Hobs].
      eapply observed_generation; [constructor | eassumption..].
    + injection H as <-. split; [constructor | assumption].
Qed.

Lemma ga_start_inv (k total_iterations : nat) (problem : Problem)
    (shuffles : list (list nat)) (w : list Q) (st0 : ga_state) (u : list nat) :
  wf_problem problem →
  ga_start k total_iterations problem shuffles w = Ok (st0, u) →
  Forall (chromosome problem) (population st0)
  ∧ length (population st0) = k
  ∧ t st0 = 1%nat
  ∧ length (fitness_record st0) = total_iterations.
Proof.
  unfold ga_start. intros Hwf H.
  inv_bind H. inv_bind H. inv_bind H. inv_bind H. inv_bind H. inv_bind H.
  inv_bind H. inv_bind H. injection H as <- <-. simpl.
  apply (initialize_pop_inv problem Hwf) in Hx as [Hpop Hlen].
  apply setitem_Ok in Hx4 as [_ ->].
  rewrite length_insert. unfold np_zeros. rewrite length_replicate. auto.
Qed.

(** C1.  In every run on a well-formed problem with non-negative
    capacities, at the end of the initialisation and at the end of every
    generation, every row of the population satisfies every capacity
    constraint. *)
Theorem population_feasible (k total_iterations : nat) (problem : Problem)
    (repair_operator : string) (shuffles : list (list nat)) (w : list Q)
    (st0 : ga_state) (u : list nat) (st : ga_state) :
  wf_problem problem →
  nonneg_capacities problem →
  ga_start k total_iterations problem shuffles w = Ok (st0, u) →
  observed total_iterations problem repair_operator u st0 st →
  ∀ row, row ∈ population st → feasible problem row.
Proof.
  intros Hwf Hb Hstart Hobs row Hrow.
  apply (ga_start_inv _ _ _ _ _ _ _ Hwf) in Hstart as (Hpop & _).
  pose proof (observed_inv problem Hwf Hb repair_operator u _ _ _ Hobs Hpop) as Hinv.
  destruct (proj1 (Forall_forall _ _) Hinv row Hrow) as (_ & _ & Hfeas).
  exact Hfeas.
Qed.

Lemma wf_ga_problem : wf_problem ga_problem.
Proof. split; try reflexivity. repeat constructor. Qed.

Lemma nonneg_ga_problem : nonneg_capacities ga_problem.
Proof. repeat constructor; simpl; lia. Qed.

Lemma ga_run_observed :
  observed 3 ga_problem "simple" [0; 3; 2; 1]%nat ga_state_0 ga_state_2.
Proof.
  apply (observed_generation _ _ _ _ _ ga_state_1 [
    {| draw_1 := [2; 1]%nat; draw_2 := [1; 0]%nat;
       coins := [0; 0; 0; 0]; mutation := 1; flip := 0%nat |};
    {| draw_1 := [2; 1]%nat; draw_2 := [1; 0]%nat;
       coins := [0; 1; 0; 0]; mutation := 1; flip := 0%nat |} ]).
  - apply (observed_generation _ _ _ _ _ ga_state_0 [
      {| draw_1 := [2; 1]%nat; draw_2 := [1; 0]%nat;
         coins := [0; 0; 0; 1]; mutation := 0; flip := 2%nat |} ]).
    + apply observed_start.
    + simpl. lia.
    + reflexivity.
  - simpl. lia.
  - reflexivity.
Defined.

(** The run on [ga_problem]: after generation 2 the child of generation 1
    sits in row 1, and it and the three surviving rows are feasible. *)
Lemma population_feasible_witness :
  feasible ga_problem [0; 1; 0; 1] ∧ feasible ga_problem [1; 0; 1; 0]
  ∧ feasible ga_problem [1; 0; 0; 1] ∧ feasible ga_problem [1; 1; 0; 0].
Proof.
  pose proof (population_feasible 4 3 ga_problem "simple" ga_shuffles [1; 1]%Q
                ga_state_0 [0; 3; 2; 1]%nat ga_state_2
                wf_ga_problem nonneg_ga_problem eq_refl ga_run_observed) as H.
  repeat split; apply H; simpl.
  - apply list_elem_of_here.
  - apply list_elem_of_further, list_elem_of_here.
  - do 2 apply list_elem_of_further. apply list_elem_of_here.
  - do 3 apply list_elem_of_further. apply list_elem_of_here.
Defined.

(** ** The best-fitness record *)

(** A generation writes entry [t] of the record: the previous entry, or the
    fitness of the child when that is greater. *)
Lemma generation_record (problem : Problem) (op : string) (u : list nat)
    (st st' : ga_state) (ds : list draws) :
  generation problem op u st ds = Ok st' →
  t st' = S (t st)
  ∧ fitness st' = fitness st
  ∧ (t st < length (fitness_record st))%nat
  ∧ ∃ previous child_fitness,
      fitness_record st !! (t st - 1)%nat = Some previous
      ∧ fitness_record st' = <[t st:=Z.max previous child_fitness]> (fitness_record st).
Proof.
  unfold generation. intros H.
  inv_bind H. inv_bind H. inv_bind H. inv_bind H.
  destruct ds as [|d retries]; [discriminate|].
  inv_bind H. inv_bind H.
  apply replace_and_record_inv in H as (_ & Hfit & Ht & best & Hbest & Hrec).
  simpl in *. apply getitem_Ok in Hx. apply setitem_Ok in Hx0 as [Hlt ->].
  rewrite list_lookup_insert_eq in Hbest by assumption. injection Hbest as <-.
  rewrite list_insert_insert_eq in Hrec. eauto 8.
Qed.

Lemma generation_nondecreasing (problem : Problem) (op : string) (u : list nat)
    (st st' : ga_state) (ds : list draws) :
  generation problem op u st ds = Ok st' →
  (1 ≤ t st)%nat →
  nondecreasing_upto (fitness_record st) (t st) →
  nondecreasing_upto (fitness_record st') (t st')
  ∧ length (fitness_record st') = length (fitness_record st).
Proof.
  intros H Ht Hinv.
  apply generation_record in H as (Ht' & _ & Hlt & previous & cf & Hprev & ->).
  rewrite length_insert. split; [|reflexivity].
  rewrite Ht'. intros i Hi. destruct (decide (i = t st)) as [-> | Hne].
  - exists previous, (Z.max previous cf).
    rewrite list_lookup_insert_ne by lia.
    rewrite list_lookup_insert_eq by assumption. repeat split; [assumption | lia].
  - destruct (Hinv i) as (x & y & Hx & Hy & Hxy); [lia|].
    exists x, y. rewrite !list_lookup_insert_ne by lia. auto.
Qed.

Lemma observed_nondecreasing (total_iterations : nat) (problem : Problem) (op : string)
    (u : list nat) (st0 st : ga_state) :
  observed total_iterations problem op u st0 st →
  t st0 = 1%nat →
  (1 ≤ t st)%nat
  ∧ nondecreasing_upto (fitness_record st) (t st)
  ∧ length (fitness_record st) = length (fitness_record st0).
Proof.
  intros Hobs Ht0. induction Hobs as [|st ds st' _ (Ht & Hinv & Hlen) _ Hgen].
  - repeat split; [lia|]. intros i Hi. lia.
  - destruct (generation_nondecreasing _ _ _ _ _ _ Hgen Ht Hinv) as [Hinv' Hlen'].
    apply generation_record in Hgen as (Ht' & _). repeat split; [lia | assumption | congruence].
Qed.

Lemma ga_start_record (k total_iterations : nat) (problem : Problem)
    (shuffles : list (list nat)) (w : list Q) (st0 : ga_state) (u : list nat) :
  ga_start k total_iterations problem shuffles w = Ok (st0, u) →
  t st0 = 1%nat ∧ length (fitness_record st0) = total_iterations.
Proof.
  unfold ga_start. intros H.
  inv_bind H. inv_bind H. inv_bind H. inv_bind H. inv_bind H. inv_bind H.
  inv_bind H. inv_bind H. injection H as <- <-. simpl.
  apply setitem_Ok in Hx4 as [_ ->].
  rewrite length_insert. unfold np_zeros. rewrite length_replicate. auto.
Qed.

(** C8.  In the fitness record a run returns, every entry from generation 1
    on is at least the entry before it. *)
Theorem elitism_monotone (k total_iterations : nat) (problem : Problem)
    (repair_operator : string) (shuffles : list (list nat)) (w : list Q)
    (tape : list (list draws)) (best_fitness : list Z) (best_solution : list (list Z)) :
  find_ga k total_iterations problem repair_operator shuffles w tape
    = Ok (best_fitness, best_solution) →
  ∀ t, (1 ≤ t < total_iterations)%nat →
    ∃ x y, best_fitness !! (t - 1)%nat = Some x
           ∧ best_fitness !! t = Some y
           ∧ x <= y.
Proof.
  unfold find_ga. intros H.
  inv_bind H. inv_bind H. injection H as <- <-. destruct x as [st0 u]. simpl in *.
  apply ga_start_record in Hx as [Ht0 Hlen0].
  apply ga_loop_observed in Hx0 as [Hobs Hend].
  apply observed_nondecreasing in Hobs as (_ & Hinv & _); [|assumption].
  intros i Hi. apply Hinv. lia.
Qed.

(** The run on [ga_problem] over three iterations returns the record
    [30, 37, 37]. *)
Lemma elitism_monotone_witness :
  (∃ x y, [30; 37; 37] !! 0%nat = Some x ∧ [30; 37; 37] !! 1%nat = Some y ∧ x <= y)
  ∧ (∃ x y, [30; 37; 37] !! 1%nat = Some x ∧ [30; 37; 37] !! 2%nat = Some y ∧ x <= y).
Proof.
  pose proof (elitism_monotone 4 3 ga_problem "simple" ga_shuffles [1; 1]%Q ga_tape
                [30; 37; 37] [[1; 1; 0; 0]; [1; 0; 1; 0]; [1; 0; 1; 0]] eq_refl) as H.
  split.
  - apply (H 1%nat). lia.
  - apply (H 2%nat). lia.
Defined.

(** ** The fitness vector *)

(** No generation writes the fitness vector. *)
Lemma observed_fitness (total_iterations : nat) (problem : Problem) (op : string)
    (u : list nat) (st0 st : ga_state) :
  observed total_iterations problem op u st0 st → fitness st = fitness st0.
Proof.
  intros Hobs. induction Hobs as [|st ds st' _ IH _ Hgen]; [reflexivity|].
  apply generation_record in Hgen as (_ & Hfit & _). congruence.
Qed.

(** C2.  Generation 1 of the run on [ga_problem]: the child [1,0,1,0] of
    fitness 37 replaces row 1, the row of lowest fitness 18; every other
    row stays, and so does the whole fitness vector, whose entry 1 is still
    18; the rows now have the fitness [27, 37, 21, 30], and the next
    generation again takes row 1, the best one, for the row of lowest
    fitness. *)
Theorem replacement_leaves_fitness_stale :
  generation ga_problem "simple" [0; 3; 2; 1]%nat ga_state_0
    [ {| draw_1 := [2; 1]%nat; draw_2 := [1; 0]%nat;
         coins := [0; 0; 0; 1]; mutation := 0; flip := 2%nat |} ]
    = Ok ga_state_1
  ∧ argmin (fitness ga_state_0) = Ok 1%nat
  ∧ population ga_state_1 = <[1%nat:=[1; 0; 1; 0]]> (population ga_state_0)
  ∧ evaluate_child_fitness [1; 0; 1; 0] ga_problem = 37
  ∧ fitness ga_state_1 !! 1%nat = Some 18
  ∧ fitness ga_state_1 = fitness ga_state_0
  ∧ evaluate_pop_fitness (population ga_state_1) ga_problem = Ok [27; 37; 21; 30]
  ∧ argmin (fitness ga_state_1) = Ok 1%nat.
Proof. repeat split. Qed.

(** ** The initialiser on items that all fit *)

(** When every selection of items is feasible, the construction loop
    selects each item it pops and ends on the pop from the emptied
    shuffle. *)
Lemma init_scan_all_fit (problem : Problem) (rest : list nat) :
  wf_problem problem →
  (∀ S, binary S → length S = items problem → feasible problem S) →
  NoDup rest →
  ∀ S : list Z,
    binary S → length S = items problem →
    Forall (λ j, S !! j = Some 0) rest →
    init_scan problem rest S (row_sums (r problem) S) = Raise IndexError.
Proof.
  intros Hwf Hall Hnd. induction Hnd as [|j rest Hj _ IH]; intros S HS Hlen Hrest.
  - reflexivity.
  - apply Forall_cons in Hrest as [Hsj Hrest]. simpl.
    unfold getitem. rewrite Hsj. simpl.
    assert (Hlt : (j < items problem)%nat) by (apply lookup_lt_Some in Hsj; lia).
    rewrite (column_item problem Hwf j Hlt). simpl.
    rewrite <- row_sums_select by assumption.
    assert (HS' : binary (<[j:=1]> S)) by (apply binary_insert; auto).
    assert (Hlen' : length (<[j:=1]> S) = items problem)
      by (rewrite length_insert; assumption).
    rewrite (proj2 (all_less_equal_spec _ _)
               (proj1 (feasible_row_sums problem _) (Hall _ HS' Hlen'))).
    rewrite setitem_lt by lia. simpl. apply IH; [assumption..|].
    apply Forall_forall. intros j' Hj'.
    rewrite list_lookup_insert_ne by (intros ->; contradiction).
    exact (proj1 (Forall_forall _ _) Hrest j' Hj').
Qed.

Lemma init_row_all_fit (problem : Problem) (T : list nat) :
  wf_problem problem →
  (∀ S, binary S → length S = items problem → feasible problem S) →
  T ≡ₚ seq 0 (items problem) →
  init_row problem T = Raise IndexError.
Proof.
  intros Hwf Hall HT. unfold init_row.
  rewrite (init_scan_all_fit problem (rev T) Hwf Hall); [reflexivity | | | |].
  - apply NoDup_ListNoDup, List.NoDup_rev, NoDup_ListNoDup.
    rewrite HT. apply NoDup_seq.
  - apply binary_zeros.
  - apply length_replicate.
  - apply Forall_forall. intros j Hj.
    apply list_elem_of_In, in_rev, list_elem_of_In in Hj. rewrite HT in Hj.
    apply elem_of_seq in Hj. apply lookup_replicate. split; [reflexivity | lia].
Qed.

(** C10.  When both items cost nothing, the construction loop selects
    every item of the shuffle, and the pop that follows the last selection
    reads an empty array: [initialize_pop] raises [IndexError], whatever the
    shuffle. *)
Theorem initialize_pop_exhausts_shuffle :
  initialize_pop 1 free_items [[0; 1]%nat] = Raise IndexError
  ∧ initialize_pop 1 free_items [[1; 0]%nat] = Raise IndexError
  ∧ init_scan free_items [] [1; 1] [0] = Raise IndexError.
Proof. repeat split. Qed.

(** * Further properties of the operators *)

(** ** [np.argmax] and [np.argmin] *)

Section ArgBest.

(** [better y best] says that [y] beats the running extremum [best];
    [no_better x m] says that [x] does not beat [m]. *)
Variable better : Z → Z → bool.
Variable no_better : Z → Z → Prop.
Hypothesis better_spec : ∀ y best, better y best = false ↔ no_better y best.
Hypothesis no_better_refl : ∀ x, no_better x x.
Hypothesis no_better_trans : ∀ x y z, no_better x y → no_better y z → no_better x z.
Hypothesis no_better_total : ∀ x y, no_better x y ∨ no_better y x.

Lemma argbest_spec (a : list Z) :
  ∀ (pre : list Z) (best_i : nat) (best : Z),
    pre !! best_i = Some best →
    (∀ k x, pre !! k = Some x → no_better x best) →
    (∀ k x, (k < best_i)%nat → pre !! k = Some x → ¬ no_better best x) →
    ∃ m, (pre ++ a) !! argbest better a (length pre) best_i best = Some m
         ∧ (∀ k x, (pre ++ a) !! k = Some x → no_better x m)
         ∧ (∀ k x, (k < argbest better a (length pre) best_i best)%nat →
                   (pre ++ a) !! k = Some x → ¬ no_better m x).
Proof.
  induction a as [|y a IH]; intros pre best_i best Hbest Hmax Hfirst; simpl.
  - rewrite app_nil_r. eauto.
  - replace (Datatypes.S (length pre)) with (length (pre ++ [y]))
      by (rewrite length_app; simpl; lia).
    replace (pre ++ y :: a) with ((pre ++ [y]) ++ a)
      by (rewrite <- app_assoc; reflexivity).
    destruct (better y best) eqn:Hy.
    + assert (Hy' : ¬ no_better y best).
      { intros Hyb. apply better_spec in Hyb. congruence. }
      assert (Hlt : no_better best y).
      { destruct (no_better_total best y); [assumption | contradiction]. }
      apply IH.
      * rewrite lookup_app_r by lia. rewrite Nat.sub_diag. reflexivity.
      * intros k x Hk. apply lookup_app_Some in Hk as [Hk | [_ Hk]].
        -- eauto.
        -- destruct (k - length pre)%nat as [|k']; [|destruct k'; discriminate].
           injection Hk as <-. apply no_better_refl.
      * intros k x Hlt' Hk Hyx. rewrite lookup_app_l in Hk by assumption.
        apply Hy'. eauto.
    + apply better_spec in Hy. apply IH.
      * apply lookup_app_l_Some. assumption.
      * intros k x Hk. apply lookup_app_Some in Hk as [Hk | [_ Hk]].
        -- eauto.
        -- destruct (k - length pre)%nat as [|k']; [|destruct k'; discriminate].
           injection Hk as <-. assumption.
      * intros k x Hlt' Hk. apply lookup_lt_Some in Hbest.
        rewrite lookup_app_l in Hk by lia. eauto.
Qed.

End ArgBest.

(** [np.argmax] returns the first position of the largest entry. *)
Lemma argmax_spec (a : list Z) (w : nat) :
  argmax a = Ok w →
  ∃ m, a !! w = Some m
       ∧ (∀ k x, a !! k = Some x → x <= m)
       ∧ (∀ k x, (k < w)%nat → a !! k = Some x → x < m).
Proof.
  destruct a as [|y a]; [discriminate|]. intros [= <-].
  destruct (argbest_spec (λ y best, best <? y) (λ x m, x <= m)) with
    (a := a) (pre := [y]) (best_i := 0%nat) (best := y) as (m & Hm & Hmax & Hfirst).
  - intros. apply Z.ltb_ge.
  - intros. lia.
  - intros. lia.
  - intros. lia.
  - reflexivity.
  - intros [|k] x Hk; [injection Hk as <-; lia | discriminate].
  - intros k x Hk. lia.
  - exists m. simpl in *. repeat split; [assumption | assumption |].
    intros k x Hlt Hk. specialize (Hfirst k x Hlt Hk). lia.
Qed.

(** [np.argmin] returns the first position of the smallest entry. *)
Lemma argmin_spec (a : list Z) (w : nat) :
  argmin a = Ok w →
  ∃ m, a !! w = Some m
       ∧ (∀ k x, a !! k = Some x → m <= x)
       ∧ (∀ k x, (k < w)%nat → a !! k = Some x → m < x).
Proof.
  destruct a as [|y a]; [discriminate|]. intros [= <-].
  destruct (argbest_spec (λ y best, y <? best) (λ x m, m <= x)) with
    (a := a) (pre := [y]) (best_i := 0%nat) (best := y) as (m & Hm & Hmax & Hfirst).
  - intros. apply Z.ltb_ge.
  - intros. lia.
  - intros. lia.
  - intros. lia.
  - reflexivity.
  - intros [|k] x Hk; [injection Hk as <-; lia | discriminate].
  - intros k x Hk. lia.
  - exists m. simpl in *. repeat split; [assumption | assumption |].
    intros k x Hlt Hk. specialize (Hfirst k x Hlt Hk). lia.
Qed.

(** ** More on binary tournament selection *)

Lemma take_values_lookup (a : list Z) (idxs : list nat) (xs : list Z) :
  take_values a idxs = Ok xs →
  ∀ i idx, idxs !! i = Some idx → xs !! i = a !! idx ∧ is_Some (a !! idx).
Proof.
  revert xs. induction idxs as [|j idxs IH]; intros xs H i idx Hi; [discriminate|].
  simpl in H. inv_bind H. inv_bind H. injection H as <-. apply getitem_Ok in Hx.
  destruct i as [|i]; simpl in *.
  - injection Hi as <-. rewrite Hx. eauto.
  - eauto.
Qed.

(** The pools of a population of at least four rows: [T_1] holds the rows
    at the drawn positions, [T_2] two of the remaining rows. *)
Lemma tournament_pools_Ok (population : list (list Z)) (n : nat)
    (draw_1 draw_2 : list nat) :
  (4 ≤ length population)%nat →
  Forall (λ row, length row = n) population → (0 < n)%nat →
  valid_draw (length population) 2 draw_1 →
  valid_draw (length population - 2) 2 draw_2 →
  ∃ T_2, tournament_pools population draw_1 draw_2 = Ok (draw_1, T_2)
         ∧ length T_2 = 2%nat
         ∧ Forall (λ x, (x < length population)%nat ∧ x ∉ draw_1) T_2.
Proof.
  intros Hk Hrows Hn (Hlen1 & Hnd1 & Hlt1) (Hlen2 & Hnd2 & Hlt2).
  set (k := length population) in *.
  unfold tournament_pools. rewrite (column_Ok population n 0 Hrows Hn). simpl.
  rewrite length_map. fold k. unfold choice.
  rewrite length_seq. destruct (decide (2 ≤ k)%nat); [|lia].
  rewrite take_at_seq by assumption. simpl.
  unfold np_delete. rewrite length_seq.
  assert (Hall : forallb (λ i, (i <? k)%nat) draw_1 = true).
  { apply forallb_forall. intros i Hi. apply Nat.ltb_lt.
    apply list_elem_of_In in Hi. exact (proj1 (Forall_forall _ _) Hlt1 i Hi). }
  rewrite Hall. simpl. rewrite delete_from_seq.
  pose proof (length_without k draw_1 Hnd1 Hlt1) as Hpool. rewrite Hlen1 in Hpool.
  destruct (decide (2 ≤ length (filter (λ x, x ∉ draw_1) (seq 0 k)))%nat); [|lia].
  destruct (take_at_Ok (filter (λ x, x ∉ draw_1) (seq 0 k)) draw_2)
    as (T_2 & HT2 & HlenT2 & HinT2).
  { rewrite Hpool. assumption. }
  exists T_2. rewrite HT2. simpl. repeat split; [congruence |].
  eapply Forall_impl; [exact HinT2|]. simpl. intros x Hx.
  apply list_elem_of_filter in Hx as [Hx1 Hx2]. apply elem_of_seq in Hx2.
  split; [lia | assumption].
Qed.

(** The winner of a pool has the largest fitness of the pool. *)
Lemma winner_best (tournament_fitness : list Z) (T : list nat) :
  T ≠ [] → Forall (λ i, (i < length tournament_fitness)%nat) T →
  ∃ f w parent best,
    take_values tournament_fitness T = Ok f
    ∧ argmax f = Ok w
    ∧ getitem T w = Ok parent
    ∧ parent ∈ T
    ∧ tournament_fitness !! parent = Some best
    ∧ (∀ x fx, x ∈ T → tournament_fitness !! x = Some fx → fx <= best).
Proof.
  intros Hne HT.
  destruct (winner_Ok tournament_fitness T Hne HT) as (f & w & parent & Hf & Hw & Hp & Hin).
  destruct (argmax_spec f w Hw) as (m & Hm & Hmax & _).
  apply getitem_Ok in Hp.
  destruct (take_values_lookup _ _ _ Hf w parent Hp) as [Hfw _].
  exists f, w, parent, m. repeat split; auto.
  - apply getitem_Ok. assumption.
  - congruence.
  - intros x fx Hx Hfx. apply list_elem_of_lookup in Hx as [i Hi].
    destruct (take_values_lookup _ _ _ Hf i x Hi) as [Hfi _].
    apply (Hmax i). congruence.
Qed.

(** X1.  For a population of at least four rows, each parent is a row index
    of the population and its fitness is the largest of its pool. *)
Theorem tournament_winners (population : list (list Z)) (tournament_fitness : list Z)
    (n : nat) (draw_1 draw_2 : list nat) :
  (4 ≤ length population)%nat →
  Forall (λ row, length row = n) population → (0 < n)%nat →
  length tournament_fitness = length population →
  valid_draw (length population) 2 draw_1 →
  valid_draw (length population - 2) 2 draw_2 →
  ∃ T_1 T_2 parent_1 parent_2 best_1 best_2,
    tournament_pools population draw_1 draw_2 = Ok (T_1, T_2)
    ∧ binary_tournament_selection population tournament_fitness draw_1 draw_2
      = Ok (parent_1, parent_2)
    ∧ (parent_1 < length population)%nat ∧ (parent_2 < length population)%nat
    ∧ tournament_fitness !! parent_1 = Some best_1
    ∧ tournament_fitness !! parent_2 = Some best_2
    ∧ (∀ x fx, x ∈ T_1 → tournament_fitness !! x = Some fx → fx <= best_1)
    ∧ (∀ x fx, x ∈ T_2 → tournament_fitness !! x = Some fx → fx <= best_2).
Proof.
  intros Hk Hrows Hn Hfit Hd1 Hd2.
  destruct (tournament_pools_Ok population n draw_1 draw_2 Hk Hrows Hn Hd1 Hd2)
    as (T_2 & Hpools & HlenT2 & HT2).
  destruct Hd1 as (Hlen1 & _ & Hlt1).
  destruct (winner_best tournament_fitness draw_1)
    as (f1 & w1 & parent_1 & best_1 & Hf1 & Hw1 & Hp1 & Hin1 & Hb1 & Hmax1).
  { intros ->. discriminate. }
  { rewrite Hfit. assumption. }
  destruct (winner_best tournament_fitness T_2)
    as (f2 & w2 & parent_2 & best_2 & Hf2 & Hw2 & Hp2 & Hin2 & Hb2 & Hmax2).
  { intros ->. discriminate. }
  { rewrite Hfit. eapply Forall_impl; [exact HT2|]. simpl. tauto. }
  exists draw_1, T_2, parent_1, parent_2, best_1, best_2. repeat split; auto.
  - unfold binary_tournament_selection. rewrite Hpools. simpl.
    rewrite Hf1. simpl. rewrite Hw1. simpl. rewrite Hp1. simpl.
    rewrite Hf2. simpl. rewrite Hw2. simpl. rewrite Hp2. reflexivity.
  - exact (proj1 (Forall_forall _ _) Hlt1 parent_1 Hin1).
  - exact (proj1 (proj1 (Forall_forall _ _) HT2 parent_2 Hin2)).
Qed.

Lemma valid_draw_4_0 : valid_draw 6 2 [4; 0]%nat.
Proof.
  split; [reflexivity|]. split; [|repeat constructor; simpl; lia].
  apply (bool_decide_unpack _). vm_compute. exact I.
Defined.

Lemma valid_draw_1_2 : valid_draw 4 2 [1; 2]%nat.
Proof.
  split; [reflexivity|]. split; [|repeat constructor; simpl; lia].
  apply (bool_decide_unpack _). vm_compute. exact I.
Defined.

Lemma tournament_winners_witness :
  ∃ T_1 T_2 parent_1 parent_2 best_1 best_2,
    tournament_pools six_rows [4; 0]%nat [1; 2]%nat = Ok (T_1, T_2)
    ∧ binary_tournament_selection six_rows [0; 4; 5; 6; 9; 10] [4; 0]%nat [1; 2]%nat
      = Ok (parent_1, parent_2)
    ∧ (parent_1 < length six_rows)%nat ∧ (parent_2 < length six_rows)%nat
    ∧ [0; 4; 5; 6; 9; 10] !! parent_1 = Some best_1
    ∧ [0; 4; 5; 6; 9; 10] !! parent_2 = Some best_2
    ∧ (∀ x fx, x ∈ T_1 → [0; 4; 5; 6; 9; 10] !! x = Some fx → fx <= best_1)
    ∧ (∀ x fx, x ∈ T_2 → [0; 4; 5; 6; 9; 10] !! x = Some fx → fx <= best_2).
Proof.
  apply (tournament_winners six_rows [0; 4; 5; 6; 9; 10] 3 [4; 0]%nat [1; 2]%nat).
  - simpl. lia.
  - repeat constructor.
  - lia.
  - reflexivity.
  - exact valid_draw_4_0.
  - exact valid_draw_1_2.
Defined.

(** X2.  With fewer than four rows the selection raises [ValueError]: the
    first or the second draw asks for more rows than the pool holds. *)
Theorem tournament_small_population (population : list (list Z))
    (tournament_fitness : list Z) (n : nat) (draw_1 draw_2 : list nat) :
  (length population < 4)%nat →
  Forall (λ row, length row = n) population → (0 < n)%nat →
  ((2 ≤ length population)%nat → valid_draw (length population) 2 draw_1) →
  binary_tournament_selection population tournament_fitness draw_1 draw_2
  = Raise ValueError.
Proof.
  intros Hk Hrows Hn Hd1. set (k := length population) in *.
  unfold binary_tournament_selection, tournament_pools.
  rewrite (column_Ok population n 0 Hrows Hn). simpl.
  rewrite length_map. fold k. unfold choice.
  rewrite length_seq. destruct (decide (2 ≤ k)%nat) as [H2|]; [|reflexivity].
  destruct (Hd1 H2) as (Hlen1 & Hnd1 & Hlt1).
  rewrite take_at_seq by assumption. simpl.
  unfold np_delete. rewrite length_seq.
  assert (Hall : forallb (λ i, (i <? k)%nat) draw_1 = true).
  { apply forallb_forall. intros i Hi. apply Nat.ltb_lt.
    apply list_elem_of_In in Hi. exact (proj1 (Forall_forall _ _) Hlt1 i Hi). }
  rewrite Hall. simpl. rewrite delete_from_seq.
  pose proof (length_without k draw_1 Hnd1 Hlt1) as Hpool. rewrite Hlen1 in Hpool.
  destruct (decide (2 ≤ length (filter (λ x, x ∉ draw_1) (seq 0 k)))%nat); [lia|].
  reflexivity.
Qed.

Lemma tournament_small_population_witness :
  binary_tournament_selection [[0; 0; 0]; [1; 0; 0]; [0; 1; 0]] [0; 4; 5]
    [2; 0]%nat [0; 0]%nat
  = Raise ValueError.
Proof.
  apply (tournament_small_population _ _ 3).
  - simpl. lia.
  - repeat constructor.
  - lia.
  - intros _. split; [reflexivity|]. split; [|repeat constructor; simpl; lia].
    apply (bool_decide_unpack _). vm_compute. exact I.
Defined.

(** ** More on crossover *)

(** The loop writes positions [i, ..., i + count - 1] of the child, each
    from the parent its coin names, and leaves the others alone. *)
Lemma crossover_loop_spec (count : nat) :
  ∀ (i : nat) (parent_1 parent_2 coins C : list Z),
    (count ≤ length coins)%nat →
    (i + count ≤ length C)%nat →
    (i + count ≤ length parent_1)%nat → (i + count ≤ length parent_2)%nat →
    ∃ C', crossover_loop count i parent_1 parent_2 coins C = Ok C'
          ∧ length C' = length C
          ∧ (∀ k, (k < i)%nat ∨ (i + count ≤ k)%nat → C' !! k = C !! k)
          ∧ (∀ k coin, coins !! k = Some coin → (k < count)%nat →
               C' !! (i + k)%nat
               = (if coin =? 0 then parent_1 else parent_2) !! (i + k)%nat).
Proof.
  induction count as [|count IH]; intros i parent_1 parent_2 coins C Hcoins HC H1 H2.
  - exists C. simpl. repeat split; auto. intros. lia.
  - destruct coins as [|coin coins]; [simpl in Hcoins; lia|]. simpl in Hcoins. simpl.
    assert (Hx : ∃ x, (if coin =? 0 then getitem parent_1 i else getitem parent_2 i) = Ok x
                      ∧ (if coin =? 0 then parent_1 else parent_2) !! i = Some x).
    { destruct (coin =? 0).
      - destruct (lookup_lt_is_Some_2 parent_1 i) as [x Hx]; [lia|].
        exists x. split; [apply getitem_Ok|]; assumption.
      - destruct (lookup_lt_is_Some_2 parent_2 i) as [x Hx]; [lia|].
        exists x. split; [apply getitem_Ok|]; assumption. }
    destruct Hx as (x & -> & Hx). simpl.
    rewrite setitem_lt by lia. simpl.
    destruct (IH (Datatypes.S i) parent_1 parent_2 coins (<[i:=x]> C))
      as (C' & Hrun & Hlen & Hout & Hin); try (rewrite ?length_insert; lia).
    exists C'. rewrite length_insert in Hlen. repeat split; auto.
    + intros k Hk. rewrite Hout by lia. apply list_lookup_insert_ne. lia.
    + intros [|k] coin' Hk Hlt; simpl in Hk.
      * injection Hk as <-. rewrite Nat.add_0_r, Hout by lia.
        rewrite list_lookup_insert_eq by lia. congruence.
      * replace (i + Datatypes.S k)%nat with (Datatypes.S i + k)%nat by lia.
        apply Hin; [assumption | lia].
Qed.

(** X3.  For parents of equal length and one coin per bit, the crossover
    returns a child of the same length whose bit [k] is bit [k] of parent 1
    when coin [k] is 0 and bit [k] of parent 2 otherwise. *)
Theorem uniform_crossover_spec (parent_1 parent_2 coins : list Z) :
  length parent_2 = length parent_1 →
  (length parent_1 ≤ length coins)%nat →
  ∃ C, uniform_crossover parent_1 parent_2 coins = Ok C
       ∧ length C = length parent_1
       ∧ (∀ k coin, coins !! k = Some coin → (k < length parent_1)%nat →
            C !! k = (if coin =? 0 then parent_1 else parent_2) !! k).
Proof.
  intros H2 Hcoins. unfold uniform_crossover.
  destruct (crossover_loop_spec (length parent_1) 0 parent_1 parent_2 coins
              (np_zeros (length parent_1)))
    as (C & Hrun & Hlen & _ & Hin);
    try (unfold np_zeros; rewrite ?length_replicate; simpl; lia).
  exists C. unfold np_zeros in Hlen. rewrite length_replicate in Hlen.
  repeat split; auto.
Qed.

Lemma uniform_crossover_spec_witness :
  ∃ C, uniform_crossover [1; 0; 0; 1] [1; 1; 0; 0] [0; 0; 0; 1] = Ok C
       ∧ length C = length [1; 0; 0; 1]
       ∧ (∀ k coin, [0; 0; 0; 1] !! k = Some coin → (k < length [1; 0; 0; 1])%nat →
            C !! k = (if coin =? 0 then [1; 0; 0; 1] else [1; 1; 0; 0]) !! k).
Proof.
  apply (uniform_crossover_spec [1; 0; 0; 1] [1; 1; 0; 0] [0; 0; 0; 1]).
  - reflexivity.
  - simpl. lia.
Defined.

(** X4.  A bit on which both parents agree is inherited by the child,
    whatever the coins; the child of two equal parents is that parent. *)
Theorem uniform_crossover_common (parent_1 parent_2 coins C : list Z) :
  uniform_crossover parent_1 parent_2 coins = Ok C →
  length parent_2 = length parent_1 →
  (∀ k x, parent_1 !! k = Some x → parent_2 !! k = Some x → C !! k = Some x)
  ∧ (parent_2 = parent_1 → C = parent_1).
Proof.
  intros H H2.
  assert (Hcoins : (length parent_1 ≤ length coins)%nat).
  { unfold uniform_crossover in H. revert H.
    generalize (np_zeros (length parent_1)) as C0, 0%nat as i.
    generalize (length parent_1) as count. clear. intros count. revert coins.
    induction count as [|count IH]; intros coins C0 i H; [lia|].
    simpl in H. destruct coins as [|coin coins]; [discriminate|].
    inv_bind H. inv_bind H. apply IH in H. simpl. lia. }
  destruct (crossover_loop_spec (length parent_1) 0 parent_1 parent_2 coins
              (np_zeros (length parent_1)))
    as (C' & Hrun & Hlen & _ & Hbits);
    try (unfold np_zeros; rewrite ?length_replicate; simpl; lia).
  assert (C' = C) by (unfold uniform_crossover in H; congruence). subst C'.
  unfold np_zeros in Hlen. rewrite length_replicate in Hlen. simpl in Hbits.
  assert (Hcommon : ∀ k x, parent_1 !! k = Some x → parent_2 !! k = Some x →
                           C !! k = Some x).
  { intros k x H1k H2k.
    assert (Hk : (k < length parent_1)%nat) by (apply lookup_lt_Some in H1k; lia).
    destruct (lookup_lt_is_Some_2 coins k) as [coin Hcoin]; [lia|].
    rewrite (Hbits k coin Hcoin Hk). destruct (coin =? 0); assumption. }
  split; [exact Hcommon|].
  intros ->. apply list_eq. intros k.
  destruct (parent_1 !! k) as [x|] eqn:Hk.
  - apply Hcommon; assumption.
  - apply lookup_ge_None. apply lookup_ge_None in Hk. lia.
Qed.

Lemma uniform_crossover_common_witness :
  (∀ k x, [1; 0; 0; 1] !! k = Some x → [1; 1; 0; 0] !! k = Some x →
          [1; 0; 0; 0] !! k = Some x)
  ∧ ([1; 1; 0; 0] = [1; 0; 0; 1] → [1; 0; 0; 0] = [1; 0; 0; 1]).
Proof.
  apply (uniform_crossover_common [1; 0; 0; 1] [1; 1; 0; 0] [0; 0; 0; 1] [1; 0; 0; 0]).
  - reflexivity.
  - reflexivity.
Defined.

(** ** More on mutation *)

(** The two cases of a mutation that returned. *)
Lemma mutate_effect (child : list Z) (mutation : Z) (i : nat) (child' : list Z) :
  binary child →
  mutate child mutation i = Ok child' →
  (mutation = 1 ∧ child' = child)
  ∨ (mutation ≠ 1 ∧ ∃ x, child !! i = Some x ∧ child' = <[i:=1 - x]> child).
Proof.
  unfold mutate. intros Hc H.
  destruct (Z.eqb_spec mutation 1) as [-> | Hm]; [left; split; congruence|].
  right. split; [assumption|].
  destruct (decide (length child = 0%nat)); [discriminate|].
  inv_bind H. apply getitem_Ok in Hx. exists x. split; [assumption|].
  destruct (binary_lookup child i x Hc Hx) as [-> | ->]; simpl in H;
    apply setitem_Ok in H as [_ ->]; reflexivity.
Qed.

(** X5.  A mutation of a 0/1 child changes at most bit [i]: every other bit
    stays, the length stays, coin 1 returns the child as it is, and any
    other coin flips bit [i]. *)
Theorem mutate_spec (child : list Z) (mutation : Z) (i : nat) (child' : list Z) :
  binary child →
  mutate child mutation i = Ok child' →
  length child' = length child
  ∧ (∀ k, k ≠ i → child' !! k = child !! k)
  ∧ (mutation = 1 → child' = child)
  ∧ (mutation ≠ 1 → ∃ x, child !! i = Some x ∧ child' !! i = Some (1 - x)).
Proof.
  intros Hc H.
  destruct (mutate_effect child mutation i child' Hc H)
    as [[-> ->] | (Hm & x & Hx & ->)].
  - repeat split; auto. intros Hne. contradiction.
  - rewrite length_insert. repeat split.
    + intros k Hk. apply list_lookup_insert_ne. auto.
    + intros ->. contradiction.
    + intros _. exists x. split; [assumption|].
      apply list_lookup_insert_eq. apply lookup_lt_Some in Hx. assumption.
Qed.

Lemma mutate_spec_witness :
  length [1; 0; 1; 0] = length [1; 0; 0; 0]
  ∧ (∀ k, k ≠ 2%nat → [1; 0; 1; 0] !! k = [1; 0; 0; 0] !! k)
  ∧ (0 = 1 → [1; 0; 1; 0] = [1; 0; 0; 0])
  ∧ (0 ≠ 1 → ∃ x, [1; 0; 0; 0] !! 2%nat = Some x ∧ [1; 0; 1; 0] !! 2%nat = Some (1 - x)).
Proof.
  apply (mutate_spec [1; 0; 0; 0] 0 2 [1; 0; 1; 0]).
  - solve_binary.
  - reflexivity.
Defined.

(** X6.  Flipping the same bit twice gives the child back. *)
Theorem mutate_twice (child : list Z) (mutation : Z) (i : nat) (child' : list Z) :
  binary child →
  mutate child mutation i = Ok child' →
  mutate child' mutation i = Ok child.
Proof.
  intros Hc H.
  destruct (mutate_effect child mutation i child' Hc H)
    as [[-> ->] | (Hm & x & Hx & ->)]; [reflexivity|].
  unfold mutate. destruct (Z.eqb_spec mutation 1); [contradiction|].
  assert (Hi : (i < length child)%nat) by (apply lookup_lt_Some in Hx; assumption).
  rewrite length_insert. destruct (decide (length child = 0%nat)); [lia|].
  unfold getitem. rewrite list_lookup_insert_eq by assumption. simpl.
  destruct (binary_lookup child i x Hc Hx) as [-> | ->]; simpl;
    rewrite setitem_lt by (rewrite length_insert; assumption);
    rewrite list_insert_insert_eq, list_insert_id by assumption; reflexivity.
Qed.

Lemma mutate_twice_witness : mutate [1; 0; 1; 0] 0 2 = Ok [1; 0; 0; 0].
Proof.
  apply (mutate_twice [1; 0; 0; 0] 0 2 [1; 0; 1; 0]).
  - solve_binary.
  - reflexivity.
Defined.

(** ** Fitness *)

(** X7.  Flipping bit [i] of a child changes its fitness by the profit of
    item [i]: up when the item becomes selected, down when it is dropped. *)
Theorem mutate_fitness (problem : Problem) (child : list Z) (mutation : Z) (i : nat)
    (child' : list Z) (x : Z) :
  binary child →
  mutation ≠ 1 →
  mutate child mutation i = Ok child' →
  child !! i = Some x →
  evaluate_child_fitness child' problem
  = evaluate_child_fitness child problem + nth i (p problem) 0 * (1 - 2 * x).
Proof.
  intros Hc Hm H Hx.
  destruct (mutate_effect child mutation i child' Hc H)
    as [[-> _] | (_ & x' & Hx' & ->)]; [contradiction|].
  assert (x' = x) by congruence. subst x'.
  unfold evaluate_child_fitness. rewrite (dot_insert _ _ _ x (1 - x) Hx). lia.
Qed.

Lemma mutate_fitness_witness :
  evaluate_child_fitness [1; 0; 1; 0] ga_problem
  = evaluate_child_fitness [1; 0; 0; 0] ga_problem + nth 2 (p ga_problem) 0 * (1 - 2 * 0).
Proof.
  apply (mutate_fitness ga_problem [1; 0; 0; 0] 0 2 [1; 0; 1; 0] 0).
  - solve_binary.
  - lia.
  - reflexivity.
  - reflexivity.
Defined.

(** ** More on the initial population *)

Lemma select_items_length (js : list nat) (S : list Z) :
  length (select_items js S) = length S.
Proof.
  revert S. induction js as [|j js IH]; intros S; simpl; [reflexivity|].
  unfold select_items in *. simpl. rewrite IH. apply length_insert.
Qed.

Lemma select_items_in (js : list nat) :
  ∀ (S : list Z) (k : nat),
    k ∈ js → (k < length S)%nat → select_items js S !! k = Some 1.
Proof.
  induction js as [|j js IH] using rev_ind; intros S k Hk Hlt.
  - inversion Hk.
  - unfold select_items in *. rewrite fold_left_app. simpl.
    destruct (decide (k = j)) as [-> | Hne].
    + apply list_lookup_insert_eq.
      pose proof (select_items_length js S) as Hlen. unfold select_items in Hlen. lia.
    + rewrite list_lookup_insert_ne by auto.
      apply elem_of_app in Hk as [Hk | Hk]; [auto|].
      apply list_elem_of_singleton in Hk. contradiction.
Qed.

Lemma select_items_out (js : list nat) :
  ∀ (S : list Z) (k : nat), k ∉ js → select_items js S !! k = S !! k.
Proof.
  induction js as [|j js IH]; intros S k Hk; [reflexivity|].
  unfold select_items in *. simpl. rewrite IH.
  - apply list_lookup_insert_ne. intros ->. apply Hk. apply list_elem_of_here.
  - intros Hin. apply Hk. apply list_elem_of_further. assumption.
Qed.

(** Selecting every item gives the all-ones vector. *)
Lemma select_items_all (js : list nat) (n : nat) :
  js ≡ₚ seq 0 n → select_items js (np_zeros n) = replicate n 1.
Proof.
  intros Hjs. apply list_eq. intros k.
  destruct (decide (k < n)%nat) as [Hk | Hk].
  - rewrite select_items_in.
    + symmetry. apply lookup_replicate. auto.
    + rewrite Hjs. apply elem_of_seq. lia.
    + unfold np_zeros. rewrite length_replicate. assumption.
  - rewrite !(proj2 (lookup_ge_None _ _)); [reflexivity | |].
    + rewrite length_replicate. lia.
    + rewrite select_items_length. unfold np_zeros. rewrite length_replicate. lia.
Qed.

Section Initialisation.

Variable problem : Problem.
Hypothesis Hwf : wf_problem problem.

(** The construction loop on distinct unselected items: either every item
    fits and the loop runs off the shuffle, or it stops at the first item
    that does not fit, having selected the items before it. *)
Lemma init_scan_cases (rest : list nat) :
  NoDup rest →
  ∀ S : list Z,
    binary S → length S = items problem → feasible problem S →
    Forall (λ j, S !! j = Some 0) rest →
    (init_scan problem rest S (row_sums (r problem) S) = Raise IndexError
     ∧ feasible problem (select_items rest S))
    ∨ (∃ c j,
         rest !! c = Some j
         ∧ init_scan problem rest S (row_sums (r problem) S)
           = Ok (select_items (take c rest) S,
                 row_sums (r problem) (select_items (take c rest) S))
         ∧ feasible problem (select_items (take c rest) S)
         ∧ ¬ feasible problem (<[j:=1]> (select_items (take c rest) S))).
Proof.
  intros Hnd. induction Hnd as [|j rest Hj _ IH]; intros S HS Hlen Hfeas Hrest.
  - left. auto.
  - apply Forall_cons in Hrest as [Hsj Hrest]. simpl.
    unfold getitem. rewrite Hsj. simpl.
    assert (Hlt : (j < items problem)%nat) by (apply lookup_lt_Some in Hsj; lia).
    rewrite (column_item problem Hwf j Hlt). simpl.
    rewrite <- row_sums_select by assumption.
    destruct (all_less_equal _ _) eqn:Hfit.
    + rewrite setitem_lt by lia. simpl.
      assert (Hfeas1 : feasible problem (<[j:=1]> S)).
      { apply feasible_row_sums, all_less_equal_spec. assumption. }
      destruct (IH (<[j:=1]> S)) as [[Hrun Hall] | (c & j' & Hc & Hrun & Hf & Hnf)].
      * apply binary_insert; auto.
      * rewrite length_insert. assumption.
      * assumption.
      * apply Forall_forall. intros j' Hj'.
        rewrite list_lookup_insert_ne by (intros ->; contradiction).
        exact (proj1 (Forall_forall _ _) Hrest j' Hj').
      * left. split; assumption.
      * right. exists (Datatypes.S c), j'. simpl. auto.
    + right. exists 0%nat, j. simpl. repeat split; [assumption|].
      intros Hf. apply feasible_row_sums, all_less_equal_spec in Hf. congruence.
Qed.

Lemma init_row_cases (T : list nat) :
  nonneg_capacities problem →
  T ≡ₚ seq 0 (items problem) →
  (init_row problem T = Raise IndexError
   ∧ feasible problem (replicate (items problem) 1))
  ∨ (∃ c j,
       rev T !! c = Some j
       ∧ init_row problem T
         = Ok (select_items (take c (rev T)) (np_zeros (items problem)))
       ∧ feasible problem (select_items (take c (rev T)) (np_zeros (items problem)))
       ∧ ¬ feasible problem
             (<[j:=1]> (select_items (take c (rev T)) (np_zeros (items problem))))).
Proof.
  intros Hb HT. unfold init_row.
  assert (Hrev : rev T ≡ₚ seq 0 (items problem)).
  { rewrite <- HT. symmetry. apply Permutation_rev. }
  destruct (init_scan_cases (rev T)) with (S := np_zeros (items problem))
    as [[Hrun Hall] | (c & j & Hc & Hrun & Hf & Hnf)].
  - rewrite Hrev. apply NoDup_seq.
  - apply binary_zeros.
  - apply length_replicate.
  - apply feasible_zeros. assumption.
  - apply Forall_forall. intros j Hj. rewrite Hrev in Hj.
    apply elem_of_seq in Hj. apply lookup_replicate. split; [reflexivity | lia].
  - left. rewrite Hrun. split; [reflexivity|].
    rewrite <- (select_items_all (rev T)); assumption.
  - right. exists c, j. rewrite Hrun. simpl.
    rewrite sanity_check_Ok by (apply feasible_any_greater; assumption).
    auto.
Qed.

End Initialisation.

(** X8.  On a shuffle of the items, a row of the initial population selects
    exactly the items popped before the first one that does not fit: the
    construction stops there and looks at no later item. *)
Theorem init_row_prefix (problem : Problem) (T : list nat) (S : list Z) :
  wf_problem problem →
  nonneg_capacities problem →
  T ≡ₚ seq 0 (items problem) →
  init_row problem T = Ok S →
  ∃ c j,
    rev T !! c = Some j
    ∧ S = select_items (take c (rev T)) (np_zeros (items problem))
    ∧ feasible problem S
    ∧ ¬ feasible problem (<[j:=1]> S).
Proof.
  intros Hwf Hb HT H.
  destruct (init_row_cases problem Hwf T Hb HT)
    as [[Hrun _] | (c & j & Hc & Hrun & Hf & Hnf)]; [congruence|].
  rewrite Hrun in H. injection H as <-. exists c, j. auto.
Qed.

Lemma init_row_prefix_witness :
  ∃ c j,
    rev [2; 0; 1; 3]%nat !! c = Some j
    ∧ [0; 1; 0; 1] = select_items (take c (rev [2; 0; 1; 3]%nat)) (np_zeros (items ga_problem))
    ∧ feasible ga_problem [0; 1; 0; 1]
    ∧ ¬ feasible ga_problem (<[j:=1]> [0; 1; 0; 1]).
Proof.
  apply (init_row_prefix ga_problem [2; 0; 1; 3]%nat [0; 1; 0; 1]).
  - exact wf_ga_problem.
  - exact nonneg_ga_problem.
  - simpl. transitivity [0; 2; 1; 3]%nat.
    + apply perm_swap.
    + apply perm_skip, perm_swap.
  - reflexivity.
Defined.

(** X9.  When the items do not all fit together, [initialize_pop] returns
    its [N] rows for every choice of shuffles: neither the pop from an
    emptied shuffle nor the final check raises. *)
Theorem initialize_pop_returns (N : nat) (problem : Problem) (shuffles : list (list nat)) :
  wf_problem problem →
  nonneg_capacities problem →
  ¬ feasible problem (replicate (items problem) 1) →
  length shuffles = N →
  Forall (λ T, T ≡ₚ seq 0 (items problem)) shuffles →
  ∃ rows, initialize_pop N problem shuffles = Ok rows ∧ length rows = N.
Proof.
  intros Hwf Hb Hfull Hlen Hsh. revert N Hlen.
  induction Hsh as [|T shuffles HT _ IH]; intros N Hlen; simpl in Hlen; subst N.
  - exists []. auto.
  - destruct (init_row_cases problem Hwf T Hb HT)
      as [[_ Hall] | (c & j & _ & Hrun & _)]; [contradiction|].
    destruct (IH _ eq_refl) as (rows & Hrows & Hlen).
    eexists. simpl. rewrite Hrun. simpl. rewrite Hrows. simpl.
    split; [reflexivity | simpl; congruence].
Qed.

Lemma not_all_fit_ga_problem : ¬ feasible ga_problem (replicate (items ga_problem) 1).
Proof. intros H. apply feasible_any_greater in H. discriminate H. Qed.

Lemma ga_shuffles_valid : Forall (λ T, T ≡ₚ seq 0 (items ga_problem)) ga_shuffles.
Proof.
  repeat apply List.Forall_cons; try apply List.Forall_nil; simpl.
  - transitivity [0; 2; 1; 3]%nat; [apply perm_swap | apply perm_skip, perm_swap].
  - apply perm_skip. transitivity [2; 3; 1]%nat; [apply perm_swap|].
    transitivity [2; 1; 3]%nat; [apply perm_skip, perm_swap | apply perm_swap].
  - transitivity [1; 2; 0; 3]%nat; [apply perm_swap|].
    transitivity [1; 0; 2; 3]%nat; [apply perm_skip, perm_swap | apply perm_swap].
  - symmetry. apply (Permutation_rev [0; 1; 2; 3]%nat).
Qed.

Lemma initialize_pop_returns_witness :
  ∃ rows, initialize_pop 4 ga_problem ga_shuffles = Ok rows ∧ length rows = 4%nat.
Proof.
  apply (initialize_pop_returns 4 ga_problem ga_shuffles).
  - exact wf_ga_problem.
  - exact nonneg_ga_problem.
  - exact not_all_fit_ga_problem.
  - reflexivity.
  - exact ga_shuffles_valid.
Defined.

(** X10.  Whatever the shuffles, the rows [initialize_pop] returns are [N]
    vectors of 0 and 1, one entry per item. *)
Theorem initialize_pop_shape (N : nat) (problem : Problem) (shuffles : list (list nat))
    (rows : list (list Z)) :
  wf_problem problem →
  initialize_pop N problem shuffles = Ok rows →
  length rows = N
  ∧ Forall (λ row, binary row ∧ length row = items problem) rows.
Proof.
  intros Hwf H. apply (initialize_pop_inv problem Hwf) in H as [Hrows Hlen].
  split; [assumption|]. eapply Forall_impl; [exact Hrows|].
  intros row (Hbin & Hl & _). auto.
Qed.

Lemma initialize_pop_shape_witness :
  length [[0; 1; 0; 1]; [0; 1; 0; 0]; [1; 0; 0; 1]; [1; 1; 0; 0]] = 4%nat
  ∧ Forall (λ row, binary row ∧ length row = items ga_problem)
      [[0; 1; 0; 1]; [0; 1; 0; 0]; [1; 0; 0; 1]; [1; 1; 0; 0]].
Proof.
  apply (initialize_pop_shape 4 ga_problem ga_shuffles).
  - exact wf_ga_problem.
  - reflexivity.
Defined.

(** ** More on repair *)

Lemma returns_or_index_error_bind {A B} (m : result A) (f : A → result B)
    (P : A → Prop) (Q : B → Prop) :
  returns_or_index_error m P →
  (∀ a, P a → returns_or_index_error (f a) Q) →
  returns_or_index_error (m ≫= f) Q.
Proof. destruct m as [a|e]; simpl; auto. Qed.

Lemma getitem_returns {A} (a : list A) (i : nat) :
  returns_or_index_error (getitem a i) (λ x, a !! i = Some x).
Proof. unfold getitem. destruct (a !! i); simpl; reflexivity. Qed.

Section RepairErrors.

Variable problem : Problem.
Hypothesis Hwf : wf_problem problem.

(** A usage vector that goes with a feasible 0/1 chromosome. *)
Let consistent (SR : list Z * list Z) : Prop :=
  binary (fst SR) ∧ length (fst SR) = items problem
  ∧ snd SR = row_sums (r problem) (fst SR)
  ∧ feasible problem (fst SR).

Lemma drop_loop_returns (us : list nat) :
  ∀ S : list Z,
    binary S → length S = items problem →
    returns_or_index_error (drop_loop problem us S (row_sums (r problem) S)) consistent.
Proof.
  assert (Hdone : ∀ S : list Z,
             binary S → length S = items problem →
             any_greater (row_sums (r problem) S) (b problem) = false →
             consistent (S, row_sums (r problem) S)).
  { intros S HS Hlen Hgt. repeat split; auto. apply feasible_any_greater. assumption. }
  induction us as [|uj us IH]; intros S HS Hlen; simpl;
    destruct (any_greater _ _) eqn:Hgt; simpl; auto.
  eapply returns_or_index_error_bind; [apply getitem_returns|].
  intros s Hs. simpl in Hs.
  assert (Hj : (uj < items problem)%nat) by (apply lookup_lt_Some in Hs; lia).
  destruct (Z.eqb_spec s 1) as [-> | _]; [|auto].
  rewrite setitem_lt by lia. simpl.
  rewrite (column_item problem Hwf uj Hj). simpl.
  rewrite <- row_sums_deselect by assumption.
  apply IH; [apply binary_insert; auto | rewrite length_insert; assumption].
Qed.

Lemma add_step_returns (u : list nat) (j : nat) (S : list Z) :
  consistent (S, row_sums (r problem) S) →
  returns_or_index_error (add_step problem u (S, row_sums (r problem) S) j) consistent.
Proof.
  intros (HS & Hlen & _ & Hfeas). simpl in *. unfold add_step. simpl.
  eapply returns_or_index_error_bind; [apply getitem_returns|].
  intros uj _. eapply returns_or_index_error_bind; [apply getitem_returns|].
  intros s Hs. simpl in Hs.
  assert (Hj : (uj < items problem)%nat) by (apply lookup_lt_Some in Hs; lia).
  destruct (Z.eqb_spec s 0) as [-> | _]; [|repeat split; auto].
  rewrite (column_item problem Hwf uj Hj). simpl.
  rewrite <- row_sums_select by assumption.
  destruct (all_less_equal _ _) eqn:Hfit; [|repeat split; auto].
  rewrite setitem_lt by lia. simpl. repeat split; simpl.
  - apply binary_insert; auto.
  - rewrite length_insert. assumption.
  - apply feasible_row_sums, all_less_equal_spec. assumption.
Qed.

Lemma add_loop_returns (u : list nat) (js : list nat) :
  ∀ S : list Z,
    consistent (S, row_sums (r problem) S) →
    returns_or_index_error (add_loop problem u js (S, row_sums (r problem) S)) consistent.
Proof.
  induction js as [|j js IH]; intros S HS; simpl; [exact HS|].
  eapply returns_or_index_error_bind; [apply add_step_returns; assumption|].
  intros [S1 R1] H1. pose proof H1 as (_ & _ & HR & _). simpl in HR. subst R1.
  apply IH. assumption.
Qed.

Lemma fancy_repair_returns (u : list nat) (S : list Z) :
  binary S → length S = items problem →
  returns_or_index_error (fancy_repair S (row_sums (r problem) S) problem u)
    (chromosome problem).
Proof.
  intros HS Hlen. unfold fancy_repair, add_phase.
  eapply returns_or_index_error_bind; [apply drop_loop_returns; assumption|].
  intros [S1 R1] H1. pose proof H1 as (_ & _ & HR & _). simpl in HR. subst R1.
  eapply returns_or_index_error_bind; [apply add_loop_returns; assumption|].
  intros [S2 R2] (HS2 & Hlen2 & HR2 & Hfeas2). simpl in *. subst R2.
  rewrite sanity_check_Ok by (apply feasible_any_greater; assumption).
  simpl. repeat split; assumption.
Qed.

End RepairErrors.

(** X11.  The outcomes of [repair] on a 0/1 vector with one entry per item,
    for any operator and any ranking: a feasible 0/1 vector of the same
    length; [IndexError], only under the fancy operator; or the
    bad-operator exception, only for an operator that is neither "simple"
    nor "fancy".  The exception of the final check of [fancy_repair] is
    never raised. *)
Theorem repair_outcomes (problem : Problem) (operator : string) (u : list nat)
    (S : list Z) :
  wf_problem problem →
  nonneg_capacities problem →
  binary S → length S = items problem →
  match repair S problem operator u with
  | Ok S' => chromosome problem S'
  | Raise e =>
      (e = IndexError ∧ operator = "fancy"%string)
      ∨ (e = BadOperator ∧ operator ≠ "simple"%string ∧ operator ≠ "fancy"%string)
  end.
Proof.
  intros Hwf Hb HS Hlen. unfold repair.
  destruct (String.eqb_spec operator "simple") as [-> | Hns].
  - destruct (any_greater _ _) eqn:Hgt.
    + repeat split; [apply binary_zeros | | apply feasible_zeros; assumption].
      rewrite <- Hlen. apply length_replicate.
    + repeat split; auto. apply feasible_any_greater. assumption.
  - destruct (String.eqb_spec operator "fancy") as [-> | Hnf]; [|auto].
    pose proof (fancy_repair_returns problem Hwf u S HS Hlen) as H.
    destruct (fancy_repair _ _ _ _); simpl in H; auto.
Qed.

Lemma repair_outcomes_witness :
  match repair [1; 1; 1] small_problem "fancy" [0; 2; 1]%nat with
  | Ok S' => chromosome small_problem S'
  | Raise e =>
      (e = IndexError ∧ "fancy"%string = "fancy"%string)
      ∨ (e = BadOperator ∧ "fancy"%string ≠ "simple"%string
         ∧ "fancy"%string ≠ "fancy"%string)
  end.
Proof.
  apply (repair_outcomes small_problem "fancy" [0; 2; 1]%nat [1; 1; 1]).
  - exact wf_small_problem.
  - exact nonneg_small_problem.
  - solve_binary.
  - reflexivity.
Defined.

(** ** Usage grows with the selection *)

Lemma dot_mono (row : list Z) :
  Forall (λ c, 0 <= c) row →
  ∀ S S' : list Z, Forall2 Z.le S S' → dot row S <= dot row S'.
Proof.
  intros Hrow. induction Hrow as [|c row Hc _ IH]; intros S S' HSS'.
  - unfold dot. simpl. lia.
  - destruct HSS' as [|x y S S' Hxy HSS']; [unfold dot; simpl; lia|].
    rewrite !dot_cons. specialize (IH S S' HSS'). nia.
Qed.

(** A chromosome below a feasible one (bit by bit) is feasible. *)
Lemma feasible_below (problem : Problem) (S S' : list Z) :
  nonneg_costs problem →
  binary S → binary S' → length S = length S' →
  (∀ i, S !! i = Some 1 → S' !! i = Some 1) →
  feasible problem S' → feasible problem S.
Proof.
  intros Hr HS HS' Hlen Hsub Hfeas i row cap Hrow Hcap.
  specialize (Hfeas i row cap Hrow Hcap).
  pose proof (proj1 (Forall_lookup _ _) Hr i row Hrow) as Hnonneg. simpl in Hnonneg.
  enough (dot row S <= dot row S') by lia.
  apply dot_mono; [assumption|].
  apply Forall2_same_length_lookup_2; [assumption|].
  intros k x y Hx Hy.
  destruct (binary_lookup S k x HS Hx) as [-> | ->].
  - destruct (binary_lookup S' k y HS' Hy) as [-> | ->]; lia.
  - rewrite (Hsub k Hx) in Hy. injection Hy as <-. lia.
Qed.

Section FancyRepair.

Variable problem : Problem.
Hypothesis Hwf : wf_problem problem.

(** What one step of the ADD loop does, read off a step that returned. *)
Lemma add_step_effect (u : list nat) (j : nat) (S : list Z) (SR : list Z * list Z) :
  add_step problem u (S, row_sums (r problem) S) j = Ok SR →
  binary S → length S = items problem →
  ∃ uj, u !! j = Some uj ∧ (uj < items problem)%nat
        ∧ binary (fst SR) ∧ length (fst SR) = items problem
        ∧ snd SR = row_sums (r problem) (fst SR)
        ∧ (∀ i, S !! i = Some 1 → fst SR !! i = Some 1)
        ∧ (fst SR !! uj = Some 1 ∨ ¬ feasible problem (<[uj:=1]> (fst SR)))
        ∧ (S !! uj = Some 1 ∨ ¬ feasible problem (<[uj:=1]> S) → fst SR = S).
Proof.
  unfold add_step. simpl. intros H HS Hlen.
  inv_bind H. inv_bind H. apply getitem_Ok in Hx, Hx0.
  assert (Hj : (x < items problem)%nat) by (apply lookup_lt_Some in Hx0; lia).
  exists x. split; [assumption|]. split; [assumption|].
  destruct (binary_lookup S x x0 HS Hx0) as [-> | ->]; simpl in H.
  2:{ injection H as <-. simpl. repeat split; auto. }
  rewrite (column_item problem Hwf x Hj) in H. simpl in H.
  rewrite <- row_sums_select in H by assumption.
  destruct (all_less_equal _ _) eqn:Hfit.
  - rewrite setitem_lt in H by lia. simpl in H. injection H as <-. simpl.
    repeat split.
    + apply binary_insert; auto.
    + rewrite length_insert. assumption.
    + intros i Hi. destruct (decide (i = x)) as [-> | Hne]; [congruence|].
      rewrite list_lookup_insert_ne by auto. assumption.
    + left. apply list_lookup_insert_eq. lia.
    + intros [Hsel | Hnf]; [congruence|]. exfalso. apply Hnf.
      apply feasible_row_sums, all_less_equal_spec. assumption.
  - injection H as <-. simpl. repeat split; auto.
    right. intros Hf. apply feasible_row_sums, all_less_equal_spec in Hf. congruence.
Qed.

Lemma add_loop_keeps (u : list nat) (js : list nat) :
  ∀ (S : list Z) (SR : list Z * list Z),
    add_loop problem u js (S, row_sums (r problem) S) = Ok SR →
    binary S → length S = items problem →
    binary (fst SR) ∧ length (fst SR) = items problem
    ∧ snd SR = row_sums (r problem) (fst SR)
    ∧ (∀ i, S !! i = Some 1 → fst SR !! i = Some 1).
Proof.
  induction js as [|j js IH]; intros S SR H HS Hlen; simpl in H.
  - injection H as <-. auto.
  - inv_bind H. destruct x as [S1 R1].
    apply add_step_effect in Hx as (uj & _ & _ & HS1 & Hlen1 & HR1 & Hkeep1 & _);
      [|assumption..].
    simpl in *. subst R1.
    apply IH in H as (HS2 & Hlen2 & HR2 & Hkeep2); [|assumption..].
    repeat split; auto.
Qed.

(** After the ADD loop, every item at a visited position of the ranking is
    selected or does not fit any more. *)
Lemma add_loop_maximal (u : list nat) (js : list nat) :
  nonneg_costs problem →
  ∀ (S : list Z) (SR : list Z * list Z),
    add_loop problem u js (S, row_sums (r problem) S) = Ok SR →
    binary S → length S = items problem →
    ∀ j, j ∈ js →
      ∃ uj, u !! j = Some uj ∧ (uj < items problem)%nat
            ∧ (fst SR !! uj = Some 1 ∨ ¬ feasible problem (<[uj:=1]> (fst SR))).
Proof.
  intros Hr. induction js as [|j0 js IH]; intros S SR H HS Hlen j Hj.
  - inversion Hj.
  - simpl in H. inv_bind H. destruct x as [S1 R1].
    apply add_step_effect in Hx
      as (uj & Hu & Hlt & HS1 & Hlen1 & HR1 & _ & Hmax & _); [|assumption..].
    simpl in *. subst R1.
    apply elem_of_cons in Hj as [-> | Hj]; [|eauto].
    pose proof (add_loop_keeps u js S1 SR H HS1 Hlen1) as (HS2 & Hlen2 & _ & Hkeep).
    exists uj. split; [assumption|]. split; [assumption|].
    destruct Hmax as [Hsel | Hnf]; [left; auto|].
    right. intros Hf. apply Hnf.
    apply (feasible_below problem _ (<[uj:=1]> (fst SR))); auto.
    + apply binary_insert; auto.
    + apply binary_insert; auto.
    + rewrite !length_insert. congruence.
    + intros i Hi. destruct (decide (i = uj)) as [-> | Hne].
      * apply list_lookup_insert_eq. lia.
      * rewrite list_lookup_insert_ne in Hi by auto.
        rewrite list_lookup_insert_ne by auto. auto.
Qed.

(** The ADD loop changes nothing when every item at the positions it visits
    is selected or does not fit. *)
Lemma add_loop_fixed (u : list nat) (js : list nat) (S : list Z) :
  binary S → length S = items problem →
  (∀ j, j ∈ js →
     ∃ uj, u !! j = Some uj ∧ (uj < items problem)%nat
           ∧ (S !! uj = Some 1 ∨ ¬ feasible problem (<[uj:=1]> S))) →
  add_loop problem u js (S, row_sums (r problem) S) = Ok (S, row_sums (r problem) S).
Proof.
  intros HS Hlen. induction js as [|j js IH]; intros Hjs; [reflexivity|].
  simpl. destruct (Hjs j (list_elem_of_here _ _)) as (uj & Hu & Hlt & Hmax).
  assert (Hstep : add_step problem u (S, row_sums (r problem) S) j
                  = Ok (S, row_sums (r problem) S)).
  { unfold add_step, getitem. simpl. rewrite Hu. simpl.
    destruct (lookup_lt_is_Some_2 S uj) as [s Hs]; [lia|]. rewrite Hs. simpl.
    destruct (binary_lookup S uj s HS Hs) as [-> | ->]; simpl; [|reflexivity].
    rewrite (column_item problem Hwf uj Hlt). simpl.
    rewrite <- row_sums_select by assumption.
    destruct (all_less_equal _ _) eqn:Hfit; [|reflexivity].
    destruct Hmax as [Hsel | Hnf]; [congruence|]. exfalso. apply Hnf.
    apply feasible_row_sums, all_less_equal_spec. assumption. }
  rewrite Hstep. simpl. apply IH. intros j' Hj'. apply Hjs.
  apply list_elem_of_further. assumption.
Qed.

(** The DROP loop, read off a run that returned: it deselects the first
    [c] items of the ranking it is given, the first [c] for which the
    result is feasible. *)
Lemma drop_loop_prefix (us : list nat) :
  ∀ (S : list Z) (SR : list Z * list Z),
    drop_loop problem us S (row_sums (r problem) S) = Ok SR →
    binary S → length S = items problem →
    ∃ c, (c ≤ length us)%nat
         ∧ fst SR = deselect_items (take c us) S
         ∧ snd SR = row_sums (r problem) (fst SR)
         ∧ binary (fst SR) ∧ length (fst SR) = items problem
         ∧ feasible problem (fst SR)
         ∧ (∀ c', (c' < c)%nat → ¬ feasible problem (deselect_items (take c' us) S)).
Proof.
  induction us as [|uj us IH]; intros S SR H HS Hlen; simpl in H;
    destruct (any_greater _ _) eqn:Hgt.
  - discriminate.
  - injection H as <-. exists 0%nat. simpl. repeat split; auto; [|intros; lia].
    apply feasible_any_greater. assumption.
  - inv_bind H. apply getitem_Ok in Hx.
    assert (Hj : (uj < items problem)%nat) by (apply lookup_lt_Some in Hx; lia).
    assert (Hrun : drop_loop problem us (<[uj:=0]> S)
                     (row_sums (r problem) (<[uj:=0]> S)) = Ok SR).
    { destruct (binary_lookup S uj x HS Hx) as [-> | ->]; simpl in H.
      - rewrite list_insert_id by assumption. assumption.
      - rewrite setitem_lt in H by lia. simpl in H.
        rewrite (column_item problem Hwf uj Hj) in H. simpl in H.
        rewrite <- row_sums_deselect in H by assumption. assumption. }
    apply IH in Hrun as (c & Hc & HS1 & HR1 & Hbin & Hlen1 & Hfeas & Hmin).
    + exists (Datatypes.S c). simpl. repeat split; auto; [lia|].
      intros [|c'] Hc'; simpl.
      * intros Hf. apply feasible_any_greater in Hf. congruence.
      * apply Hmin. lia.
    + apply binary_insert; auto.
    + rewrite length_insert. assumption.
  - injection H as <-. exists 0%nat. simpl. repeat split; auto; [lia | | intros; lia].
    apply feasible_any_greater. assumption.
Qed.

End FancyRepair.

Lemma range_down_elem (start j : nat) :
  j ∈ range_down start ↔ (1 ≤ j ≤ start)%nat.
Proof.
  unfold range_down. rewrite list_elem_of_In, <- in_rev, <- list_elem_of_In, elem_of_seq.
  lia.
Qed.

Lemma nonneg_costs_small_problem : nonneg_costs small_problem.
Proof. repeat constructor; simpl; lia. Qed.

(** X12.  With non-negative costs, in a chromosome [fancy_repair] returns
    every item at positions 1 and above of the ranking is selected or
    cannot be added without violating a capacity constraint. *)
Theorem fancy_repair_maximal (problem : Problem) (u : list nat) (S S' : list Z) :
  wf_problem problem →
  nonneg_costs problem →
  binary S → length S = items problem →
  fancy_repair S (row_sums (r problem) S) problem u = Ok S' →
  ∀ j, (1 ≤ j < items problem)%nat →
    ∃ uj, u !! j = Some uj
          ∧ (S' !! uj = Some 1 ∨ ¬ feasible problem (<[uj:=1]> S')).
Proof.
  intros Hwf Hr HS Hlen H j Hj. unfold fancy_repair, add_phase in H.
  inv_bind H. destruct x as [S1 R1].
  apply (drop_loop_inv problem Hwf) in Hx as (HS1 & Hlen1 & HR1); [|assumption..].
  simpl in *. subst R1. inv_bind H. inv_bind H. injection H as <-.
  destruct (add_loop_maximal problem Hwf u _ Hr S1 x Hx HS1 Hlen1 j)
    as (uj & Hu & _ & Hmax).
  { apply range_down_elem. lia. }
  eauto.
Qed.

Lemma fancy_repair_maximal_witness :
  ∃ uj, [0; 2; 1]%nat !! 1%nat = Some uj
        ∧ ([0; 1; 0] !! uj = Some 1 ∨ ¬ feasible small_problem (<[uj:=1]> [0; 1; 0])).
Proof.
  apply (fancy_repair_maximal small_problem [0; 2; 1]%nat [1; 1; 1] [0; 1; 0]).
  - exact wf_small_problem.
  - exact nonneg_costs_small_problem.
  - solve_binary.
  - reflexivity.
  - reflexivity.
  - simpl. lia.
Defined.

(** X13.  With non-negative costs and capacities, repairing a repaired
    chromosome changes nothing, for both operators and any ranking. *)
Theorem repair_idempotent (problem : Problem) (operator : string) (u : list nat)
    (S S1 : list Z) :
  wf_problem problem →
  nonneg_costs problem →
  nonneg_capacities problem →
  binary S → length S = items problem →
  repair S problem operator u = Ok S1 →
  repair S1 problem operator u = Ok S1.
Proof.
  intros Hwf Hr Hb HS Hlen H.
  pose proof (repair_inv problem Hwf operator u S S1 Hb H HS Hlen)
    as (HS1 & Hlen1 & Hfeas1).
  unfold repair in *.
  destruct (String.eqb operator "simple").
  - rewrite (proj1 (feasible_any_greater problem S1) Hfeas1). reflexivity.
  - destruct (String.eqb operator "fancy"); [|discriminate].
    assert (Hmax : ∀ j, j ∈ range_down (items problem - 1) →
              ∃ uj, u !! j = Some uj ∧ (uj < items problem)%nat
                    ∧ (S1 !! uj = Some 1 ∨ ¬ feasible problem (<[uj:=1]> S1))).
    { unfold fancy_repair, add_phase in H.
      inv_bind H. destruct x as [S0 R0].
      apply (drop_loop_inv problem Hwf) in Hx as (HS0 & Hlen0 & HR0); [|assumption..].
      simpl in *. subst R0. inv_bind H. inv_bind H. injection H as <-.
      exact (add_loop_maximal problem Hwf u _ Hr S0 x Hx HS0 Hlen0). }
    unfold fancy_repair, add_phase.
    rewrite drop_loop_done by (apply feasible_any_greater; assumption). simpl.
    rewrite (add_loop_fixed problem Hwf u _ S1 HS1 Hlen1 Hmax). simpl.
    rewrite sanity_check_Ok by (apply feasible_any_greater; assumption).
    reflexivity.
Qed.

Lemma repair_idempotent_witness :
  repair [0; 1; 0] small_problem "fancy" [0; 2; 1]%nat = Ok [0; 1; 0].
Proof.
  apply (repair_idempotent small_problem "fancy" [0; 2; 1]%nat [1; 1; 1] [0; 1; 0]).
  - exact wf_small_problem.
  - exact nonneg_costs_small_problem.
  - exact nonneg_small_problem.
  - solve_binary.
  - reflexivity.
  - reflexivity.
Defined.

(** X14.  The DROP phase deselects the items at the first [c] positions of
    the ranking and nothing else, where [c] is the least count for which the
    result satisfies every capacity constraint. *)
Theorem drop_phase_prefix (problem : Problem) (u : list nat) (S S1 R1 : list Z) :
  wf_problem problem →
  binary S → length S = items problem →
  drop_loop problem u S (row_sums (r problem) S) = Ok (S1, R1) →
  ∃ c, (c ≤ length u)%nat
       ∧ S1 = deselect_items (take c u) S
       ∧ R1 = row_sums (r problem) S1
       ∧ feasible problem S1
       ∧ (∀ c', (c' < c)%nat → ¬ feasible problem (deselect_items (take c' u) S)).
Proof.
  intros Hwf HS Hlen H.
  apply (drop_loop_prefix problem Hwf) in H
    as (c & Hc & HS1 & HR1 & _ & _ & Hfeas & Hmin); [|assumption..].
  exists c. auto.
Qed.

Lemma drop_phase_prefix_witness :
  ∃ c, (c ≤ length [0; 2; 1]%nat)%nat
       ∧ [0; 1; 0] = deselect_items (take c [0; 2; 1]%nat) [1; 1; 1]
       ∧ [3; 1] = row_sums (r small_problem) [0; 1; 0]
       ∧ feasible small_problem [0; 1; 0]
       ∧ (∀ c', (c' < c)%nat →
            ¬ feasible small_problem (deselect_items (take c' [0; 2; 1]%nat) [1; 1; 1])).
Proof.
  apply (drop_phase_prefix small_problem [0; 2; 1]%nat [1; 1; 1] [0; 1; 0] [3; 1]).
  - exact wf_small_problem.
  - solve_binary.
  - reflexivity.
  - reflexivity.
Defined.

(** * Further properties of a run *)

(** Everything a generation that returned has done. *)
Lemma generation_effect (problem : Problem) (op : string) (u : list nat)
    (st st' : ga_state) (ds : list draws) :
  generation problem op u st ds = Ok st' →
  ∃ (d : draws) (retries : list draws) (C0 C : list Z) (previous : Z)
    (previous_solution : list Z) (S_prime : nat) (worst : Z),
    ds = d :: retries
    ∧ make_child problem op u (population st) (fitness st) d = Ok C0
    ∧ reject_duplicates problem op u (population st) (fitness st) C0 retries = Ok C
    ∧ fitness_record st !! (t st - 1)%nat = Some previous
    ∧ solution_record st !! (t st - 1)%nat = Some previous_solution
    ∧ (t st < length (fitness_record st))%nat
    ∧ (t st < length (solution_record st))%nat
    ∧ argmin (fitness st) = Ok S_prime
    ∧ fitness st !! S_prime = Some worst
    ∧ population st'
      = (if worst <? evaluate_child_fitness C problem
         then <[S_prime:=C]> (population st) else population st)
    ∧ ((worst <? evaluate_child_fitness C problem) = true →
       (S_prime < length (population st))%nat)
    ∧ fitness st' = fitness st
    ∧ fitness_record st'
      = <[t st:=if previous <? evaluate_child_fitness C problem
                then evaluate_child_fitness C problem else previous]>
          (fitness_record st)
    ∧ solution_record st'
      = <[t st:=if previous <? evaluate_child_fitness C problem
                then C else previous_solution]>
          (solution_record st)
    ∧ t st' = Datatypes.S (t st).
Proof.
  unfold generation. intros H.
  inv_bind H. inv_bind H. inv_bind H. inv_bind H.
  destruct ds as [|d retries]; [discriminate|].
  inv_bind H. inv_bind H. unfold replace_and_record in H. simpl in H.
  inv_bind H. inv_bind H. inv_bind H. inv_bind H. inv_bind H. inv_bind H.
  injection H as <-. simpl.
  apply getitem_Ok in Hx, Hx1, Hx6, Hx8.
  apply setitem_Ok in Hx0 as [Hlt ->]. apply setitem_Ok in Hx2 as [Hlt' ->].
  rewrite list_lookup_insert_eq in Hx8 by assumption. injection Hx8 as <-.
  exists d, retries, x3, x4, x, x1, x5, x6.
  repeat split; auto.
  - destruct (x6 <? _); [apply setitem_Ok in Hx7 as [_ ->] | injection Hx7 as <-];
      reflexivity.
  - intros Hlt''. rewrite Hlt'' in Hx7. apply setitem_Ok in Hx7 as [? _]. assumption.
  - destruct (x <? _).
    + apply setitem_Ok in Hx9 as [_ ->]. apply list_insert_insert_eq.
    + injection Hx9 as <-. reflexivity.
  - destruct (x <? _).
    + apply setitem_Ok in Hx10 as [_ ->]. apply list_insert_insert_eq.
    + injection Hx10 as <-. reflexivity.
Qed.

(** Writing a new value into a list without repetitions. *)
Lemma NoDup_insert_fresh {A} (l : list A) (i : nat) (x : A) :
  NoDup l → x ∉ l → NoDup (<[i:=x]> l).
Proof.
  intros Hnd Hx. apply NoDup_alt. intros a c y Ha Hc.
  apply list_lookup_insert_Some in Ha, Hc.
  destruct Ha as [(-> & -> & _) | [Hia Ha]]; destruct Hc as [(-> & Hy & _) | [Hic Hc]].
  - reflexivity.
  - exfalso. apply Hx. apply list_elem_of_lookup. eauto.
  - subst y. exfalso. apply Hx. apply list_elem_of_lookup. eauto.
  - exact (proj1 (NoDup_alt l) Hnd a c y Ha Hc).
Qed.

Lemma reject_duplicates_fresh (problem : Problem) (op : string) (u : list nat)
    (population : list (list Z)) (fitness : list Z) (retries : list draws) :
  ∀ C C' : list Z,
    reject_duplicates problem op u population fitness C retries = Ok C' →
    C' ∉ population.
Proof.
  induction retries as [|d retries IH]; intros C C' H; simpl in H.
  - destruct (bool_decide_reflect (C ∈ population)); [discriminate|].
    injection H as <-. assumption.
  - destruct (bool_decide_reflect (C ∈ population)).
    + inv_bind H. eauto.
    + injection H as <-. assumption.
Qed.

(** X15.  A generation changes at most one row of the population: the
    first row of lowest entry in the fitness vector, and only for a child
    that is not yet in the population and whose fitness is strictly larger
    than that entry.  The number of rows and the fitness vector stay. *)
Theorem generation_frame (problem : Problem) (op : string) (u : list nat)
    (st st' : ga_state) (ds : list draws) :
  generation problem op u st ds = Ok st' →
  ∃ (S_prime : nat) (worst : Z) (C : list Z),
    argmin (fitness st) = Ok S_prime
    ∧ fitness st !! S_prime = Some worst
    ∧ (C ∉ population st)
    ∧ population st'
      = (if worst <? evaluate_child_fitness C problem
         then <[S_prime:=C]> (population st) else population st)
    ∧ (∀ i, i ≠ S_prime → population st' !! i = population st !! i)
    ∧ length (population st') = length (population st)
    ∧ fitness st' = fitness st.
Proof.
  intros H.
  apply generation_effect in H
    as (d & retries & C0 & C & prev & prev_sol & S_prime & worst & _ & _ & Hrej & _ & _
        & _ & _ & Hmin & Hworst & Hpop & _ & Hfit & _).
  exists S_prime, worst, C. apply reject_duplicates_fresh in Hrej.
  rewrite Hpop. repeat split; auto.
  - intros i Hi. destruct (worst <? _); [|reflexivity].
    apply list_lookup_insert_ne. auto.
  - destruct (worst <? _); [apply length_insert | reflexivity].
Qed.

Lemma generation_frame_witness :
  ∃ (S_prime : nat) (worst : Z) (C : list Z),
    argmin (fitness ga_state_0) = Ok S_prime
    ∧ fitness ga_state_0 !! S_prime = Some worst
    ∧ (C ∉ population ga_state_0)
    ∧ population ga_state_1
      = (if worst <? evaluate_child_fitness C ga_problem
         then <[S_prime:=C]> (population ga_state_0) else population ga_state_0)
    ∧ (∀ i, i ≠ S_prime → population ga_state_1 !! i = population ga_state_0 !! i)
    ∧ length (population ga_state_1) = length (population ga_state_0)
    ∧ fitness ga_state_1 = fitness ga_state_0.
Proof.
  apply (generation_frame ga_problem "simple" [0; 3; 2; 1]%nat ga_state_0 ga_state_1
           [ {| draw_1 := [2; 1]%nat; draw_2 := [1; 0]%nat;
                coins := [0; 0; 0; 1]; mutation := 0; flip := 2%nat |} ]).
  reflexivity.
Defined.

(** X16.  A population without repeated rows stays without repeated rows:
    the duplicate check lets no copy of an existing row in. *)
Theorem population_stays_distinct (total_iterations : nat) (problem : Problem)
    (op : string) (u : list nat) (st0 st : ga_state) :
  observed total_iterations problem op u st0 st →
  NoDup (population st0) →
  NoDup (population st).
Proof.
  intros Hobs Hnd. induction Hobs as [|st ds st' _ IH _ Hgen]; [assumption|].
  apply generation_effect in Hgen
    as (d & retries & C0 & C & prev & prev_sol & S_prime & worst & _ & _ & Hrej & _ & _
        & _ & _ & _ & _ & Hpop & _).
  apply reject_duplicates_fresh in Hrej. rewrite Hpop.
  destruct (worst <? _); [|assumption].
  apply NoDup_insert_fresh; assumption.
Qed.

Lemma population_stays_distinct_witness : NoDup (population ga_state_2).
Proof.
  apply (population_stays_distinct 3 ga_problem "simple" [0; 3; 2; 1]%nat
           ga_state_0 ga_state_2).
  - exact ga_run_observed.
  - apply (bool_decide_unpack _). vm_compute. exact I.
Defined.

(** Everything the start of [find_ga] has done when it returned. *)
Lemma ga_start_effect (k total_iterations : nat) (problem : Problem)
    (shuffles : list (list nat)) (w : list Q) (st0 : ga_state) (u : list nat) :
  ga_start k total_iterations problem shuffles w = Ok (st0, u) →
  ∃ (max_fitness_index : nat) (best : Z) (best_solution : list Z),
    initialize_pop k problem shuffles = Ok (population st0)
    ∧ fitness st0 = map (λ row, evaluate_child_fitness row problem) (population st0)
    ∧ repair_preprocess problem w = Ok u
    ∧ argmax (fitness st0) = Ok max_fitness_index
    ∧ fitness st0 !! max_fitness_index = Some best
    ∧ population st0 !! max_fitness_index = Some best_solution
    ∧ (0 < total_iterations)%nat
    ∧ fitness_record st0 = <[0%nat:=best]> (np_zeros total_iterations)
    ∧ solution_record st0
      = <[0%nat:=best_solution]> (replicate total_iterations (np_zeros (items problem)))
    ∧ t st0 = 1%nat.
Proof.
  unfold ga_start, evaluate_pop_fitness. intros H.
  inv_bind H. inv_bind H. inv_bind Hx0. injection Hx0 as <-.
  inv_bind H. inv_bind H. inv_bind H. inv_bind H. inv_bind H. inv_bind H.
  injection H as <- <-. simpl.
  apply getitem_Ok in Hx3, Hx5.
  apply setitem_Ok in Hx4 as [Hlt ->]. apply setitem_Ok in Hx6 as [_ ->].
  unfold np_zeros in Hlt. rewrite length_replicate in Hlt.
  exists x2, x3, x5. repeat split; auto.
Qed.

Section Records.

Variable problem : Problem.
Hypothesis Hwf : wf_problem problem.
Hypothesis Hb : nonneg_capacities problem.

(** Every entry of the records written so far pairs a feasible chromosome
    with its fitness. *)
Let recorded (st : ga_state) : Prop :=
  ∀ i, (i < t st)%nat →
    ∃ sol fit,
      solution_record st !! i = Some sol
      ∧ fitness_record st !! i = Some fit
      ∧ fit = evaluate_child_fitness sol problem
      ∧ chromosome problem sol.

Lemma ga_start_recorded (k total_iterations : nat) (shuffles : list (list nat))
    (w : list Q) (st0 : ga_state) (u : list nat) :
  ga_start k total_iterations problem shuffles w = Ok (st0, u) →
  recorded st0.
Proof.
  intros H.
  destruct (ga_start_effect _ _ _ _ _ _ _ H)
    as (m & best & sol & Hinit & Hfit & _ & _ & Hbest & Hsol & Htot & Hfrec & Hsrec & Ht).
  apply (initialize_pop_inv problem Hwf) in Hinit as [Hpop _].
  intros i Hi. rewrite Ht in Hi. assert (i = 0%nat) as -> by lia.
  exists sol, best. rewrite Hfrec, Hsrec.
  rewrite !list_lookup_insert_eq
    by (unfold np_zeros; rewrite length_replicate; assumption).
  repeat split.
  - rewrite Hfit, list_lookup_fmap, Hsol in Hbest. simpl in Hbest. congruence.
  - exact (proj1 (proj1 (Forall_lookup _ _) Hpop _ _ Hsol)).
  - exact (proj1 (proj2 (proj1 (Forall_lookup _ _) Hpop _ _ Hsol))).
  - exact (proj2 (proj2 (proj1 (Forall_lookup _ _) Hpop _ _ Hsol))).
Qed.

Lemma generation_recorded (op : string) (u : list nat) (st st' : ga_state)
    (ds : list draws) :
  generation problem op u st ds = Ok st' →
  (1 ≤ t st)%nat →
  Forall (chromosome problem) (population st) →
  recorded st → recorded st'.
Proof.
  intros H Ht Hpop Hrec.
  apply generation_effect in H
    as (d & retries & C0 & C & prev & prev_sol & S_prime & worst & _ & Hchild & Hrej
        & Hprev & Hprev_sol & Hlt & Hlt' & _ & _ & _ & _ & _ & Hfrec & Hsrec & Ht').
  apply (make_child_inv problem Hwf Hb) in Hchild; [|assumption].
  apply (reject_duplicates_inv problem Hwf Hb) in Hrej as [HC _]; [|assumption..].
  intros i Hi. rewrite Ht' in Hi. rewrite Hfrec, Hsrec.
  destruct (decide (i = t st)) as [-> | Hne].
  - rewrite !list_lookup_insert_eq by assumption.
    destruct (prev <? _).
    + exists C, (evaluate_child_fitness C problem). auto.
    + destruct (Hrec (t st - 1)%nat) as (sol & fit & Hsol & Hfitr & Heq & Hchr); [lia|].
      assert (sol = prev_sol) by congruence. assert (fit = prev) by congruence.
      subst sol fit. exists prev_sol, prev. auto.
  - rewrite !list_lookup_insert_ne by auto. apply Hrec. lia.
Qed.

Lemma observed_recorded (total_iterations : nat) (op : string) (u : list nat)
    (st0 st : ga_state) :
  observed total_iterations problem op u st0 st →
  t st0 = 1%nat →
  Forall (chromosome problem) (population st0) →
  recorded st0 →
  (1 ≤ t st)%nat
  ∧ Forall (chromosome problem) (population st)
  ∧ length (population st) = length (population st0)
  ∧ length (solution_record st) = length (solution_record st0)
  ∧ recorded st.
Proof.
  intros Hobs Ht0 Hpop0 Hrec0.
  induction Hobs as [|st ds st' _ (Ht & Hpop & Hlen & Hlens & Hrec) _ Hgen].
  - repeat split; auto. lia.
  - pose proof (generation_inv problem Hwf Hb op u _ _ _ Hgen Hpop) as Hpop'.
    pose proof (generation_recorded op u _ _ _ Hgen Ht Hpop Hrec) as Hrec'.
    apply generation_effect in Hgen
      as (d & retries & C0 & C & prev & prev_sol & S_prime & worst & _ & _ & _
          & _ & _ & _ & _ & _ & _ & Hpopeq & _ & _ & _ & Hsrec & Ht').
    repeat split; auto.
    + lia.
    + rewrite Hpopeq. destruct (worst <? _); [rewrite length_insert|]; assumption.
    + rewrite Hsrec, length_insert. assumption.
Qed.

End Records.

(** X17.  At the end of the initialisation and of every generation the
    population has [k] rows, each a vector of 0 and 1 with one entry per
    item. *)
Theorem population_shape (k total_iterations : nat) (problem : Problem)
    (repair_operator : string) (shuffles : list (list nat)) (w : list Q)
    (st0 : ga_state) (u : list nat) (st : ga_state) :
  wf_problem problem →
  nonneg_capacities problem →
  ga_start k total_iterations problem shuffles w = Ok (st0, u) →
  observed total_iterations problem repair_operator u st0 st →
  length (population st) = k
  ∧ Forall (λ row, binary row ∧ length row = items problem) (population st).
Proof.
  intros Hwf Hb Hstart Hobs.
  pose proof (ga_start_recorded problem Hwf _ _ _ _ _ _ Hstart) as Hrec0.
  apply (ga_start_inv _ _ _ _ _ _ _ Hwf) in Hstart as (Hpop0 & Hlen0 & Ht0 & _).
  destruct (observed_recorded problem Hwf Hb _ _ _ _ _ Hobs Ht0 Hpop0 Hrec0)
    as (_ & Hpop & Hlen & _).
  split; [congruence|]. eapply Forall_impl; [exact Hpop|].
  intros row (Hbin & Hl & _). auto.
Qed.

Lemma population_shape_witness :
  length (population ga_state_2) = 4%nat
  ∧ Forall (λ row, binary row ∧ length row = items ga_problem) (population ga_state_2).
Proof.
  apply (population_shape 4 3 ga_problem "simple" ga_shuffles [1; 1]%Q
           ga_state_0 [0; 3; 2; 1]%nat ga_state_2).
  - exact wf_ga_problem.
  - exact nonneg_ga_problem.
  - reflexivity.
  - exact ga_run_observed.
Defined.

(** X18.  In the records a run returns, every entry pairs a chromosome with
    its own fitness, and that chromosome is a feasible vector of 0 and 1:
    the best-fitness record is the fitness of the best-solution record. *)
Theorem records_consistent (k total_iterations : nat) (problem : Problem)
    (repair_operator : string) (shuffles : list (list nat)) (w : list Q)
    (tape : list (list draws)) (best_fitness : list Z) (best_solution : list (list Z)) :
  wf_problem problem →
  nonneg_capacities problem →
  find_ga k total_iterations problem repair_operator shuffles w tape
    = Ok (best_fitness, best_solution) →
  length best_fitness = total_iterations
  ∧ length best_solution = total_iterations
  ∧ ∀ i, (i < total_iterations)%nat →
      ∃ sol fit,
        best_solution !! i = Some sol
        ∧ best_fitness !! i = Some fit
        ∧ fit = evaluate_child_fitness sol problem
        ∧ binary sol ∧ length sol = items problem ∧ feasible problem sol.
Proof.
  unfold find_ga. intros Hwf Hb H.
  inv_bind H. inv_bind H. injection H as <- <-. destruct x as [st0 u]. simpl in *.
  pose proof (ga_start_recorded problem Hwf _ _ _ _ _ _ Hx) as Hrec0.
  destruct (ga_start_effect _ _ _ _ _ _ _ Hx)
    as (m0 & best0 & sol0 & _ & _ & _ & _ & _ & _ & _ & _ & Hsrec0 & _).
  pose proof (ga_start_record _ _ _ _ _ _ _ Hx) as [_ Hflen0].
  apply (ga_start_inv _ _ _ _ _ _ _ Hwf) in Hx as (Hpop0 & _ & Ht0 & _).
  apply ga_loop_observed in Hx0 as [Hobs Hend].
  destruct (observed_recorded problem Hwf Hb _ _ _ _ _ Hobs Ht0 Hpop0 Hrec0)
    as (_ & _ & _ & Hslen & Hrec).
  apply observed_nondecreasing in Hobs as (_ & _ & Hflen); [|assumption].
  repeat split.
  - congruence.
  - rewrite Hslen, Hsrec0, length_insert. apply length_replicate.
  - intros i Hi. destruct (Hrec i) as (sol & fit & Hsol & Hfit & Heq & Hbin & Hlen & Hfeas);
      [lia|].
    exists sol, fit. auto 7.
Qed.

Lemma records_consistent_witness :
  length [30; 37; 37] = 3%nat
  ∧ length [[1; 1; 0; 0]; [1; 0; 1; 0]; [1; 0; 1; 0]] = 3%nat
  ∧ ∀ i, (i < 3)%nat →
      ∃ sol fit,
        [[1; 1; 0; 0]; [1; 0; 1; 0]; [1; 0; 1; 0]] !! i = Some sol
        ∧ [30; 37; 37] !! i = Some fit
        ∧ fit = evaluate_child_fitness sol ga_problem
        ∧ binary sol ∧ length sol = items ga_problem ∧ feasible ga_problem sol.
Proof.
  apply (records_consistent 4 3 ga_problem "simple" ga_shuffles [1; 1]%Q ga_tape).
  - exact wf_ga_problem.
  - exact nonneg_ga_problem.
  - reflexivity.
Defined.

(** X19.  Throughout a run the fitness vector is the one evaluated on the
    initial population: no generation writes it, also when a row is
    replaced. *)
Theorem fitness_of_initial_rows (k total_iterations : nat) (problem : Problem)
    (repair_operator : string) (shuffles : list (list nat)) (w : list Q)
    (st0 : ga_state) (u : list nat) (st : ga_state) :
  ga_start k total_iterations problem shuffles w = Ok (st0, u) →
  observed total_iterations problem repair_operator u st0 st →
  fitness st = map (λ row, evaluate_child_fitness row problem) (population st0).
Proof.
  intros Hstart Hobs.
  destruct (ga_start_effect _ _ _ _ _ _ _ Hstart) as (m & best & sol & _ & Hfit & _).
  rewrite <- Hfit. clear Hfit Hstart.
  induction Hobs as [|st ds st' _ IH _ Hgen]; [reflexivity|].
  apply generation_effect in Hgen
    as (d & retries & C0 & C & prev & prev_sol & S_prime & worst & _ & _ & _
        & _ & _ & _ & _ & _ & _ & _ & _ & Hfit' & _).
  congruence.
Qed.

Lemma fitness_of_initial_rows_witness :
  fitness ga_state_2
  = map (λ row, evaluate_child_fitness row ga_problem) (population ga_state_0).
Proof.
  apply (fitness_of_initial_rows 4 3 ga_problem "simple" ga_shuffles [1; 1]%Q
           ga_state_0 [0; 3; 2; 1]%nat ga_state_2).
  - reflexivity.
  - exact ga_run_observed.
Defined.

Lemma nondecreasing_from_start (record : list Z) (upto : nat) :
  nondecreasing_upto record upto →
  ∀ i x y, (i < upto)%nat → record !! 0%nat = Some x → record !! i = Some y → x <= y.
Proof.
  intros Hinv i. induction i as [|i IH]; intros x y Hi Hx Hy.
  - assert (x = y) by congruence. lia.
  - destruct (Hinv (Datatypes.S i)) as (a & c & Ha & Hc & Hac); [lia|].
    replace (Datatypes.S i - 1)%nat with i in Ha by lia.
    assert (c = y) by congruence. subst c.
    assert (x <= a) by (apply IH; [lia | assumption..]). lia.
Qed.

(** X20.  Every entry of the best-fitness record a run returns is at least
    the fitness of every row of the initial population; entry 0 is the
    fitness of one of these rows. *)
Theorem record_dominates_initial (k total_iterations : nat) (problem : Problem)
    (repair_operator : string) (shuffles : list (list nat)) (w : list Q)
    (tape : list (list draws)) (st0 : ga_state) (u : list nat)
    (best_fitness : list Z) (best_solution : list (list Z)) :
  ga_start k total_iterations problem shuffles w = Ok (st0, u) →
  find_ga k total_iterations problem repair_operator shuffles w tape
    = Ok (best_fitness, best_solution) →
  (∃ row, row ∈ population st0
          ∧ best_fitness !! 0%nat = Some (evaluate_child_fitness row problem))
  ∧ (∀ i y row, best_fitness !! i = Some y → row ∈ population st0 →
       evaluate_child_fitness row problem <= y).
Proof.
  unfold find_ga. intros Hstart H. rewrite Hstart in H. simpl in H.
  inv_bind H. injection H as <- <-.
  destruct (ga_start_effect _ _ _ _ _ _ _ Hstart)
    as (m & best & sol & _ & Hfit & _ & Hmax & Hbest & Hsol & Htot & Hfrec & _ & Ht0).
  pose proof (ga_start_record _ _ _ _ _ _ _ Hstart) as [_ Hlen0].
  apply ga_loop_observed in Hx as [Hobs Hend].
  pose proof (observed_nondecreasing _ _ _ _ _ _ Hobs Ht0) as (Ht & Hinv & Hlen).
  assert (H0 : fitness_record x !! 0%nat = Some best).
  { destruct total_iterations as [|[|n]]; [lia | |].
    - assert (Hx0 : x = st0); [|subst x; rewrite Hfrec; reflexivity].
      clear - Hobs Ht0. induction Hobs as [|st ds st' _ IH Hlt _]; [reflexivity|].
      subst st. lia.
    - destruct (Hinv 1%nat) as (a & c & Ha & _); [lia|]. simpl in Ha.
      enough (a = best) by congruence.
      clear - Hobs Ht0 Hfrec Ha.
      induction Hobs as [|st ds st' Hobs' IH _ Hgen].
      + rewrite Hfrec in Ha. simpl in Ha. congruence.
      + pose proof (observed_nondecreasing _ _ _ _ _ _ Hobs' Ht0) as (Ht & _).
        apply generation_effect in Hgen
          as (d & retries & C0 & C & prev & prev_sol & S_prime & worst & _ & _ & _
              & _ & _ & _ & _ & _ & _ & _ & _ & _ & Hfrec' & _).
        rewrite Hfrec', list_lookup_insert_ne in Ha by lia. auto. }
  destruct (argmax_spec _ _ Hmax) as (mx & Hmx & Hall & _).
  assert (mx = best) by congruence. subst mx.
  split.
  - exists sol. split; [apply list_elem_of_lookup; eauto|].
    rewrite H0. rewrite Hfit, list_lookup_fmap, Hsol in Hbest. simpl in Hbest.
    congruence.
  - intros i y row Hy Hrow.
    apply list_elem_of_lookup in Hrow as [j Hj].
    assert (Hle : evaluate_child_fitness row problem <= best).
    { apply (Hall j). rewrite Hfit, list_lookup_fmap, Hj. reflexivity. }
    enough (best <= y) by lia.
    apply (nondecreasing_from_start _ _ Hinv i best y); [|assumption..].
    apply lookup_lt_Some in Hy. lia.
Qed.

Lemma record_dominates_initial_witness :
  (∃ row, row ∈ population ga_state_0
          ∧ [30; 37; 37] !! 0%nat = Some (evaluate_child_fitness row ga_problem))
  ∧ (∀ i y row, [30; 37; 37] !! i = Some y → row ∈ population ga_state_0 →
       evaluate_child_fitness row ga_problem <= y).
Proof.
  apply (record_dominates_initial 4 3 ga_problem "simple" ga_shuffles [1; 1]%Q ga_tape
           ga_state_0 [0; 3; 2; 1]%nat [30; 37; 37]
           [[1; 1; 0; 0]; [1; 0; 1; 0]; [1; 0; 1; 0]]).
  - reflexivity.
  - reflexivity.
Defined.

(** X21.  What [find_ga] needs in order to return at all: at least one
    iteration, one row and one item, and at least two knapsacks with two
    entries of the solver's vector — the preprocessing reads [w[1]] and
    [r[1, :]] whatever the problem. *)
Theorem find_ga_requirements (k total_iterations : nat) (problem : Problem)
    (repair_operator : string) (shuffles : list (list nat)) (w : list Q)
    (tape : list (list draws)) (records : list Z * list (list Z)) :
  find_ga k total_iterations problem repair_operator shuffles w tape = Ok records →
  (1 ≤ total_iterations)%nat ∧ (1 ≤ k)%nat ∧ (1 ≤ items problem)%nat
  ∧ (2 ≤ length w)%nat ∧ (2 ≤ length (r problem))%nat.
Proof.
  unfold find_ga. intros H. inv_bind H. clear H. destruct x as [st0 u].
  destruct (ga_start_effect _ _ _ _ _ _ _ Hx)
    as (m & best & sol & Hinit & Hfit & Hpre & Hmax & _ & Hsol & Htot & _).
  assert (Hk : (1 ≤ k)%nat).
  { destruct k; [|lia]. simpl in Hinit. injection Hinit as Hpop.
    rewrite <- Hpop in Hsol. discriminate. }
  repeat split; try assumption.
  - destruct k as [|k']; [lia|]. simpl in Hinit.
    destruct shuffles as [|T shuffles]; [discriminate|].
    inv_bind Hinit. clear Hinit. unfold init_row in Hx0. inv_bind Hx0. clear Hx0.
    destruct (rev T) as [|j rest]; [discriminate|]. simpl in Hx1.
    inv_bind Hx1. apply getitem_Ok, lookup_lt_Some in Hx0.
    unfold np_zeros in Hx0. rewrite length_replicate in Hx0. lia.
  - unfold repair_preprocess in Hpre. simpl in Hpre.
    inv_bind Hpre. inv_bind Hx0. inv_bind Hx0. inv_bind Hx0.
    apply getitem_Ok, lookup_lt_Some in Hx3. lia.
  - unfold repair_preprocess in Hpre. simpl in Hpre.
    inv_bind Hpre. inv_bind Hx0. inv_bind Hx0. inv_bind Hx0. inv_bind Hx0.
    apply getitem_Ok, lookup_lt_Some in Hx4. lia.
Qed.

Lemma find_ga_requirements_witness :
  (1 ≤ 3)%nat ∧ (1 ≤ 4)%nat ∧ (1 ≤ items ga_problem)%nat
  ∧ (2 ≤ length [1; 1]%Q)%nat ∧ (2 ≤ length (r ga_problem))%nat.
Proof.
  apply (find_ga_requirements 4 3 ga_problem "simple" ga_shuffles [1; 1]%Q ga_tape
           ([30; 37; 37], [[1; 1; 0; 0]; [1; 0; 1; 0]; [1; 0; 1; 0]])).
  reflexivity.
Defined.

(** * Further properties of the ranking and of the fitness *)

Section ArgSort.

Variable key : nat → Q.





End ArgSort.






Lemma bits_le (S S' : list Z) :
  binary S → binary S' → length S = length S' →
  (∀ i, S !! i = Some 1 → S' !! i = Some 1) →
  Forall2 Z.le S S'.
Proof.
  intros HS HS' Hlen Hsub. apply Forall2_same_length_lookup_2; [assumption|].
  intros k x y Hx Hy.
  destruct (binary_lookup S k x HS Hx) as [-> | ->].
  - destruct (binary_lookup S' k y HS' Hy) as [-> | ->]; lia.
  - rewrite (Hsub k Hx) in Hy. injection Hy as <-. lia.
Qed.

(** X23.  With non-negative profits the fitness grows with the selection:
    the empty selection has fitness 0, no 0/1 chromosome has less, and a
    chromosome that selects everything another one selects has at least its
    fitness. *)
Theorem fitness_monotone (problem : Problem) (S S' : list Z) :
  nonneg_profits problem →
  binary S → binary S' → length S = length S' →
  (∀ i, S !! i = Some 1 → S' !! i = Some 1) →
  evaluate_child_fitness (np_zeros (length S)) problem = 0
  ∧ 0 <= evaluate_child_fitness S problem
  ∧ evaluate_child_fitness S problem <= evaluate_child_fitness S' problem.
Proof.
  intros Hp HS HS' Hlen Hsub. unfold evaluate_child_fitness.
  split; [apply dot_zeros|]. split.
  - rewrite <- (dot_zeros (p problem) (length S)).
    apply dot_mono; [assumption|].
    apply bits_le; auto using binary_zeros.
    + unfold np_zeros. rewrite length_replicate. reflexivity.
    + intros i Hi. apply lookup_replicate in Hi as [? _]. discriminate.
  - apply dot_mono; [assumption|]. apply bits_le; assumption.
Qed.

Lemma nonneg_profits_ga_problem : nonneg_profits ga_problem.
Proof. repeat constructor; simpl; lia. Qed.

Lemma fitness_monotone_witness :
  evaluate_child_fitness (np_zeros (length [1; 0; 0; 0])) ga_problem = 0
  ∧ 0 <= evaluate_child_fitness [1; 0; 0; 0] ga_problem
  ∧ evaluate_child_fitness [1; 0; 0; 0] ga_problem
    <= evaluate_child_fitness [1; 0; 1; 0] ga_problem.
Proof.
  apply (fitness_monotone ga_problem [1; 0; 0; 0] [1; 0; 1; 0]).
  - exact nonneg_profits_ga_problem.
  - solve_binary.
  - solve_binary.
  - reflexivity.
  - intros [|[|[|[|i]]]] Hi; simpl in *; try discriminate; reflexivity.
Defined.

(** X24.  With non-negative profits the simple strategy never raises the
    fitness of a 0/1 child: it returns the child or the empty selection. *)
Theorem simple_repair_fitness (problem : Problem) (u : list nat) (S S' : list Z) :
  nonneg_profits problem →
  binary S →
  repair S problem "simple" u = Ok S' →
  evaluate_child_fitness S' problem <= evaluate_child_fitness S problem.
Proof.
  intros Hp HS H. rewrite repair_simple in H.
  destruct (any_greater _ _); injection H as <-; [|lia].
  unfold evaluate_child_fitness. rewrite dot_zeros.
  rewrite <- (dot_zeros (p problem) (length S)).
  apply dot_mono; [assumption|].
  apply bits_le; auto using binary_zeros.
  - unfold np_zeros. rewrite length_replicate. reflexivity.
  - intros i Hi. apply lookup_replicate in Hi as [? _]. discriminate.
Qed.

Lemma simple_repair_fitness_witness :
  evaluate_child_fitness [0; 0; 0; 0] ga_problem
  <= evaluate_child_fitness [1; 1; 0; 1] ga_problem.
Proof.
  apply (simple_repair_fitness ga_problem [0; 3; 2; 1]%nat [1; 1; 0; 1] [0; 0; 0; 0]).
  - exact nonneg_profits_ga_problem.
  - solve_binary.
  - reflexivity.
Defined.

(** X25.  With non-negative costs, when all items together satisfy every
    capacity constraint, [initialize_pop] raises [IndexError] on its first
    row, whatever the shuffle: the construction selects every item and then
    pops from the emptied shuffle. *)
Theorem initialize_pop_all_fit (N : nat) (problem : Problem) (T : list nat)
    (shuffles : list (list nat)) :
  wf_problem problem →
  nonneg_costs problem →
  feasible problem (replicate (items problem) 1) →
  T ≡ₚ seq 0 (items problem) →
  initialize_pop (Datatypes.S N) problem (T :: shuffles) = Raise IndexError.
Proof.
  intros Hwf Hr Hall HT. simpl.
  rewrite (init_row_all_fit problem T Hwf); [reflexivity | | assumption].
  intros S HS Hlen.
  apply (feasible_below problem S (replicate (items problem) 1)); auto.
  - apply Forall_replicate. auto.
  - rewrite length_replicate. assumption.
  - intros i Hi. apply lookup_replicate. split; [reflexivity|].
    apply lookup_lt_Some in Hi. lia.
Qed.

Lemma initialize_pop_all_fit_witness :
  initialize_pop 2 free_items [[1; 0]%nat; [0; 1]%nat] = Raise IndexError.
Proof.
  apply (initialize_pop_all_fit 1 free_items [1; 0]%nat [[0; 1]%nat]).
  - split; try reflexivity. repeat constructor.
  - repeat constructor; simpl; lia.
  - apply feasible_by_test. reflexivity.
  - simpl. apply perm_swap.
Defined.
